(** * Audio room session manager (AudioRoomPage)

    A shallow embedding of the audio-room page component: the initiator
    election, the peer pool kept in [peersRef], the microphone stream kept in
    [localStreamRef], the role toggles and the writes of the
    [audio_room_active] flag.

    The component is a React function component.  Its handlers are closures:
    they read the state variables ([profileId], [postOwnerId], [myRole],
    [participants]) of the render that created them, and they share the
    mutable refs ([peersRef], [localStreamRef], [channelRef],
    [madeActiveOnceRef], [hmrDisposingRef]).  The embedding keeps the two
    apart: a handler takes the captured values as an [Env] and runs in a
    state monad over a [World] that holds the refs, the React state cells
    written through their setters, and the objects obtained from the
    collaborators (peers, channels, media tracks, posts table, timers).

    Console output, alert dialogs and audio playback are not part of the
    state. *)

From Stdlib Require Import String Ascii.
From stdpp Require Import gmap list fin_maps.

Set Default Proof Using "Type".
Local Open Scope bool_scope.

(** ** Strings

    A JavaScript string is a sequence of UTF-16 code units; [<] on two strings
    compares them code unit by code unit, and a proper prefix is smaller. *)

Abbreviation jsstring := (list N).

Fixpoint str_lt (x y : jsstring) : bool :=
  match x, y with
  | _, [] => false
  | [], _ :: _ => true
  | a :: x', b :: y' => if (a =? b)%N then str_lt x' y' else (a <? b)%N
  end.

(** Code units of an ASCII literal, for writing identifiers down. *)
Definition str (s : string) : jsstring :=
  List.map N_of_ascii (list_ascii_of_string s).

(** JavaScript truthiness of a [string | null] value: [null] and the empty
    string are falsy. *)
Definition truthy (o : option jsstring) : bool :=
  match o with
  | Some (_ :: _) => true
  | _ => false
  end.

Definition truthy_str (s : jsstring) : bool :=
  match s with
  | [] => false
  | _ => true
  end.

(** ** Plain objects used as maps

    [peersRef.current] and the object [presenceState()] returns are plain
    objects.  Reading a key such an object does not hold itself finds what
    [Object.prototype] holds under that name, a function or an object and so
    truthy, and [undefined] under every other name. *)

Definition object_prototype_names : list jsstring :=
  [ str "constructor"; str "hasOwnProperty"; str "isPrototypeOf";
    str "propertyIsEnumerable"; str "toLocaleString"; str "toString";
    str "valueOf"; str "__proto__"; str "__defineGetter__";
    str "__defineSetter__"; str "__lookupGetter__"; str "__lookupSetter__" ].

Definition inherited (key : jsstring) : bool :=
  bool_decide (key ∈ object_prototype_names).

(** ** Initiator election *)

(* function isInitiator(myId, remoteId) { return myId < remoteId; } *)
Definition isInitiator (myId remoteId : jsstring) : bool := str_lt myId remoteId.


(** ** Data model *)

(* type Role = 'speaker' | 'listener' *)
Inductive Role := speaker | listener.

#[global] Instance Role_eq_dec : EqDecision Role.
Proof. solve_decision. Defined.

(* type PresenceParticipant = { ap_profile_id: string; role: Role } *)
Record PresenceParticipant := {
  ap_profile_id : jsstring;
  role : Role;
}.

(** A [MediaStream] with the identities of its tracks. *)
Record MediaStream := {
  ms_id : nat;
  ms_tracks : list nat;
}.

(** The values a handler captures from the render that created it. *)
Record Env := {
  e_profileId : option jsstring;
  e_postOwnerId : option jsstring;
  e_postId : jsstring;
  e_participants : list PresenceParticipant;
  e_myRole : Role;
  e_isDev : bool;
}.

(* const isOwner = !!profileId && !!postOwnerId && profileId === postOwnerId; *)
Definition isOwner (env : Env) : bool :=
  truthy (e_profileId env) && truthy (e_postOwnerId env)
  && bool_decide (e_profileId env = e_postOwnerId env).

(** A simple-peer instance, as far as the component can tell: what it was
    built with, the closure of the listeners [createPeer] hung on it, and what
    has been done to it since. *)
Record Peer := {
  p_initiator : bool;
  p_remote : jsstring;
  p_env : Env;
  p_destroyed : bool;
  p_tracks : list (nat * nat);
  p_signals : list nat;
}.

(** A realtime channel: topic [audio-room-${postId}], presence key, and the
    calls made on it. *)
Record Channel := {
  ch_post : jsstring;
  ch_key : jsstring;
  ch_subscribed : bool;
  ch_tracked : list Role;
  ch_sent : list (option jsstring * nat);
  ch_unsubscribed : bool;
}.

(** An update request on the posts table:
    [update({audio_room_active}).eq('id', postId).eq('user_id', postOwnerId)]. *)
Record PostUpdate := {
  upd_active : bool;
  upd_post : jsstring;
  upd_owner : option jsstring;
}.

Inductive TimerAction :=
  | TRebuild (env : Env) (remoteId : jsstring)
  | TMic (env : Env).

Record Timer := {
  tm_delay : N;
  tm_action : TimerAction;
}.

(** The rest of an [async] function, waiting for its promise. *)
Inductive Suspended :=
  | KSubscribed (env : Env) (initial : Role)
  | KStartMic
  | KBecomeSpeaker (env : Env)
  | KBecomeListener (env : Env)
  | KEndRoom (env : Env).

Record World := {
  (* React state cells *)
  w_participants : list PresenceParticipant;
  w_myRole : Role;
  w_remoteStreams : gmap jsstring MediaStream;
  (* refs *)
  w_localStream : option MediaStream;
  w_pool : gmap jsstring nat;
  w_channelRef : option nat;
  w_madeActiveOnce : bool;
  w_hmrDisposing : bool;
  (* objects handed out by the collaborators *)
  w_heap : list Peer;
  w_channels : list Channel;
  w_stopped : gset nat;
  w_posts : list PostUpdate;
  w_timers : gmap nat Timer;
  w_next_timer : nat;
  (* handlers suspended at an [await] *)
  w_pending : list Suspended;
}.

(** The component as mounted: [useState('listener')], empty refs. *)
Definition init : World := {|
  w_participants := [];
  w_myRole := listener;
  w_remoteStreams := ∅;
  w_localStream := None;
  w_pool := ∅;
  w_channelRef := None;
  w_madeActiveOnce := false;
  w_hmrDisposing := false;
  w_heap := [];
  w_channels := [];
  w_stopped := ∅;
  w_posts := [];
  w_timers := ∅;
  w_next_timer := 0;
  w_pending := [];
|}.

(** *** Field updates *)

Definition set_participants (v : list PresenceParticipant) (w : World) : World :=
  {| w_participants := v; w_myRole := w_myRole w;
     w_remoteStreams := w_remoteStreams w; w_localStream := w_localStream w;
     w_pool := w_pool w; w_channelRef := w_channelRef w;
     w_madeActiveOnce := w_madeActiveOnce w; w_hmrDisposing := w_hmrDisposing w;
     w_heap := w_heap w; w_channels := w_channels w; w_stopped := w_stopped w;
     w_posts := w_posts w; w_timers := w_timers w; w_next_timer := w_next_timer w;
     w_pending := w_pending w |}.

Definition set_myRole (v : Role) (w : World) : World :=
  {| w_participants := w_participants w; w_myRole := v;
     w_remoteStreams := w_remoteStreams w; w_localStream := w_localStream w;
     w_pool := w_pool w; w_channelRef := w_channelRef w;
     w_madeActiveOnce := w_madeActiveOnce w; w_hmrDisposing := w_hmrDisposing w;
     w_heap := w_heap w; w_channels := w_channels w; w_stopped := w_stopped w;
     w_posts := w_posts w; w_timers := w_timers w; w_next_timer := w_next_timer w;
     w_pending := w_pending w |}.

Definition upd_remoteStreams
    (g : gmap jsstring MediaStream → gmap jsstring MediaStream) (w : World) : World :=
  {| w_participants := w_participants w; w_myRole := w_myRole w;
     w_remoteStreams := g (w_remoteStreams w); w_localStream := w_localStream w;
     w_pool := w_pool w; w_channelRef := w_channelRef w;
     w_madeActiveOnce := w_madeActiveOnce w; w_hmrDisposing := w_hmrDisposing w;
     w_heap := w_heap w; w_channels := w_channels w; w_stopped := w_stopped w;
     w_posts := w_posts w; w_timers := w_timers w; w_next_timer := w_next_timer w;
     w_pending := w_pending w |}.

Definition set_localStream (v : option MediaStream) (w : World) : World :=
  {| w_participants := w_participants w; w_myRole := w_myRole w;
     w_remoteStreams := w_remoteStreams w; w_localStream := v;
     w_pool := w_pool w; w_channelRef := w_channelRef w;
     w_madeActiveOnce := w_madeActiveOnce w; w_hmrDisposing := w_hmrDisposing w;
     w_heap := w_heap w; w_channels := w_channels w; w_stopped := w_stopped w;
     w_posts := w_posts w; w_timers := w_timers w; w_next_timer := w_next_timer w;
     w_pending := w_pending w |}.

Definition upd_pool (g : gmap jsstring nat → gmap jsstring nat) (w : World) : World :=
  {| w_participants := w_participants w; w_myRole := w_myRole w;
     w_remoteStreams := w_remoteStreams w; w_localStream := w_localStream w;
     w_pool := g (w_pool w); w_channelRef := w_channelRef w;
     w_madeActiveOnce := w_madeActiveOnce w; w_hmrDisposing := w_hmrDisposing w;
     w_heap := w_heap w; w_channels := w_channels w; w_stopped := w_stopped w;
     w_posts := w_posts w; w_timers := w_timers w; w_next_timer := w_next_timer w;
     w_pending := w_pending w |}.

Definition set_channelRef (v : option nat) (w : World) : World :=
  {| w_participants := w_participants w; w_myRole := w_myRole w;
     w_remoteStreams := w_remoteStreams w; w_localStream := w_localStream w;
     w_pool := w_pool w; w_channelRef := v;
     w_madeActiveOnce := w_madeActiveOnce w; w_hmrDisposing := w_hmrDisposing w;
     w_heap := w_heap w; w_channels := w_channels w; w_stopped := w_stopped w;
     w_posts := w_posts w; w_timers := w_timers w; w_next_timer := w_next_timer w;
     w_pending := w_pending w |}.

Definition set_madeActiveOnce (v : bool) (w : World) : World :=
  {| w_participants := w_participants w; w_myRole := w_myRole w;
     w_remoteStreams := w_remoteStreams w; w_localStream := w_localStream w;
     w_pool := w_pool w; w_channelRef := w_channelRef w;
     w_madeActiveOnce := v; w_hmrDisposing := w_hmrDisposing w;
     w_heap := w_heap w; w_channels := w_channels w; w_stopped := w_stopped w;
     w_posts := w_posts w; w_timers := w_timers w; w_next_timer := w_next_timer w;
     w_pending := w_pending w |}.

Definition set_hmrDisposing (v : bool) (w : World) : World :=
  {| w_participants := w_participants w; w_myRole := w_myRole w;
     w_remoteStreams := w_remoteStreams w; w_localStream := w_localStream w;
     w_pool := w_pool w; w_channelRef := w_channelRef w;
     w_madeActiveOnce := w_madeActiveOnce w; w_hmrDisposing := v;
     w_heap := w_heap w; w_channels := w_channels w; w_stopped := w_stopped w;
     w_posts := w_posts w; w_timers := w_timers w; w_next_timer := w_next_timer w;
     w_pending := w_pending w |}.

Definition upd_heap (g : list Peer → list Peer) (w : World) : World :=
  {| w_participants := w_participants w; w_myRole := w_myRole w;
     w_remoteStreams := w_remoteStreams w; w_localStream := w_localStream w;
     w_pool := w_pool w; w_channelRef := w_channelRef w;
     w_madeActiveOnce := w_madeActiveOnce w; w_hmrDisposing := w_hmrDisposing w;
     w_heap := g (w_heap w); w_channels := w_channels w; w_stopped := w_stopped w;
     w_posts := w_posts w; w_timers := w_timers w; w_next_timer := w_next_timer w;
     w_pending := w_pending w |}.

Definition upd_channels (g : list Channel → list Channel) (w : World) : World :=
  {| w_participants := w_participants w; w_myRole := w_myRole w;
     w_remoteStreams := w_remoteStreams w; w_localStream := w_localStream w;
     w_pool := w_pool w; w_channelRef := w_channelRef w;
     w_madeActiveOnce := w_madeActiveOnce w; w_hmrDisposing := w_hmrDisposing w;
     w_heap := w_heap w; w_channels := g (w_channels w); w_stopped := w_stopped w;
     w_posts := w_posts w; w_timers := w_timers w; w_next_timer := w_next_timer w;
     w_pending := w_pending w |}.

Definition upd_stopped (g : gset nat → gset nat) (w : World) : World :=
  {| w_participants := w_participants w; w_myRole := w_myRole w;
     w_remoteStreams := w_remoteStreams w; w_localStream := w_localStream w;
     w_pool := w_pool w; w_channelRef := w_channelRef w;
     w_madeActiveOnce := w_madeActiveOnce w; w_hmrDisposing := w_hmrDisposing w;
     w_heap := w_heap w; w_channels := w_channels w; w_stopped := g (w_stopped w);
     w_posts := w_posts w; w_timers := w_timers w; w_next_timer := w_next_timer w;
     w_pending := w_pending w |}.

Definition upd_posts (g : list PostUpdate → list PostUpdate) (w : World) : World :=
  {| w_participants := w_participants w; w_myRole := w_myRole w;
     w_remoteStreams := w_remoteStreams w; w_localStream := w_localStream w;
     w_pool := w_pool w; w_channelRef := w_channelRef w;
     w_madeActiveOnce := w_madeActiveOnce w; w_hmrDisposing := w_hmrDisposing w;
     w_heap := w_heap w; w_channels := w_channels w; w_stopped := w_stopped w;
     w_posts := g (w_posts w); w_timers := w_timers w; w_next_timer := w_next_timer w;
     w_pending := w_pending w |}.

Definition upd_timers (g : gmap nat Timer → gmap nat Timer) (w : World) : World :=
  {| w_participants := w_participants w; w_myRole := w_myRole w;
     w_remoteStreams := w_remoteStreams w; w_localStream := w_localStream w;
     w_pool := w_pool w; w_channelRef := w_channelRef w;
     w_madeActiveOnce := w_madeActiveOnce w; w_hmrDisposing := w_hmrDisposing w;
     w_heap := w_heap w; w_channels := w_channels w; w_stopped := w_stopped w;
     w_posts := w_posts w; w_timers := g (w_timers w); w_next_timer := w_next_timer w;
     w_pending := w_pending w |}.

Definition set_next_timer (v : nat) (w : World) : World :=
  {| w_participants := w_participants w; w_myRole := w_myRole w;
     w_remoteStreams := w_remoteStreams w; w_localStream := w_localStream w;
     w_pool := w_pool w; w_channelRef := w_channelRef w;
     w_madeActiveOnce := w_madeActiveOnce w; w_hmrDisposing := w_hmrDisposing w;
     w_heap := w_heap w; w_channels := w_channels w; w_stopped := w_stopped w;
     w_posts := w_posts w; w_timers := w_timers w; w_next_timer := v;
     w_pending := w_pending w |}.

Definition upd_pending (g : list Suspended → list Suspended) (w : World) : World :=
  {| w_participants := w_participants w; w_myRole := w_myRole w;
     w_remoteStreams := w_remoteStreams w; w_localStream := w_localStream w;
     w_pool := w_pool w; w_channelRef := w_channelRef w;
     w_madeActiveOnce := w_madeActiveOnce w; w_hmrDisposing := w_hmrDisposing w;
     w_heap := w_heap w; w_channels := w_channels w; w_stopped := w_stopped w;
     w_posts := w_posts w; w_timers := w_timers w; w_next_timer := w_next_timer w;
     w_pending := g (w_pending w) |}.

(** ** Handlers as state transformers that may throw

    A JavaScript exception does not undo the writes made before it: a
    computation returns the world it reached together with its outcome. *)

Inductive outcome (A : Type) :=
  | Ok (a : A)
  | Throw.
Arguments Ok {A} a.
Arguments Throw {A}.

Definition M (A : Type) : Type := World → World * outcome A.

Definition ret {A} (a : A) : M A := λ w, (w, Ok a).

Definition bind {A B} (m : M A) (k : A → M B) : M B :=
  λ w, match m w with
       | (w', Ok a) => k a w'
       | (w', Throw) => (w', Throw)
       end.

Declare Scope session_scope.
Delimit Scope session_scope with M.
Notation "x <- m ;; k" := (bind m (λ x, k))
  (at level 100, m at next level, k at level 200, right associativity) : session_scope.
Notation "m ;; k" := (bind m (λ _, k))
  (at level 100, k at level 200, right associativity) : session_scope.
Bind Scope session_scope with M.
Local Open Scope session_scope.

Definition throw {A} : M A := λ w, (w, Throw).

(* try { m } catch {} *)
Definition try_catch (m : M unit) : M unit := λ w, ((m w).1, Ok tt).

Definition gets {A} (g : World → A) : M A := λ w, (w, Ok (g w)).
Definition modify (g : World → World) : M unit := λ w, (g w, Ok tt).

Definition when (b : bool) (m : M unit) : M unit := if b then m else ret tt.

(* l.forEach(body) *)
Fixpoint for_each {A} (l : list A) (body : A → M unit) : M unit :=
  match l with
  | [] => ret tt
  | x :: l' => body x ;; for_each l' body
  end.

(** The world a computation ends in. *)
Definition exec {A} (m : M A) (w : World) : World := (m w).1.
Definition result {A} (m : M A) (w : World) : outcome A := (m w).2.

(** ** The collaborators' objects

    The calls the source wraps in [try]/[catch] may throw, and so may
    [peer.signal], which it does not wrap; [Faults] says which do.  A call
    that throws leaves its object as it was. *)

Record Faults := {
  f_unsubscribe : nat → bool;
  f_destroy : nat → bool;
  f_addTrack : nat → nat → bool;
  f_signal : nat → bool;
}.

Definition peer_mark_destroyed (p : Peer) : Peer :=
  {| p_initiator := p_initiator p; p_remote := p_remote p; p_env := p_env p;
     p_destroyed := true; p_tracks := p_tracks p; p_signals := p_signals p |}.

Definition peer_add_track (t sid : nat) (p : Peer) : Peer :=
  {| p_initiator := p_initiator p; p_remote := p_remote p; p_env := p_env p;
     p_destroyed := p_destroyed p; p_tracks := p_tracks p ++ [(t, sid)];
     p_signals := p_signals p |}.

Definition peer_add_signal (d : nat) (p : Peer) : Peer :=
  {| p_initiator := p_initiator p; p_remote := p_remote p; p_env := p_env p;
     p_destroyed := p_destroyed p; p_tracks := p_tracks p;
     p_signals := p_signals p ++ [d] |}.

Definition chan_add_track (r : Role) (c : Channel) : Channel :=
  {| ch_post := ch_post c; ch_key := ch_key c; ch_subscribed := ch_subscribed c;
     ch_tracked := ch_tracked c ++ [r]; ch_sent := ch_sent c;
     ch_unsubscribed := ch_unsubscribed c |}.

Definition chan_add_sent (e : option jsstring * nat) (c : Channel) : Channel :=
  {| ch_post := ch_post c; ch_key := ch_key c; ch_subscribed := ch_subscribed c;
     ch_tracked := ch_tracked c; ch_sent := ch_sent c ++ [e];
     ch_unsubscribed := ch_unsubscribed c |}.

Definition chan_mark_unsubscribed (c : Channel) : Channel :=
  {| ch_post := ch_post c; ch_key := ch_key c; ch_subscribed := ch_subscribed c;
     ch_tracked := ch_tracked c; ch_sent := ch_sent c; ch_unsubscribed := true |}.

(* p.destroy() *)
Definition peer_destroy (f : Faults) (pid : nat) : M unit :=
  if f_destroy f pid then throw
  else modify (upd_heap (alter peer_mark_destroyed pid)).

(* peer.addTrack(t, stream) *)
Definition peer_addTrack (f : Faults) (pid t sid : nat) : M unit :=
  if f_addTrack f pid t then throw
  else modify (upd_heap (alter (peer_add_track t sid) pid)).

(** [peer.signal] throws on a peer that has been destroyed, and where
    [f_signal] says so (the library has destroyed the peer on its own after a
    failure, or cannot read the payload). *)
Definition signal_throws (f : Faults) (pid : nat) (w : World) : bool :=
  f_signal f pid || from_option p_destroyed false (w_heap w !! pid).

(* peer.signal(data) *)
Definition peer_signal (f : Faults) (pid d : nat) : M unit :=
  refused <- gets (signal_throws f pid) ;;
  if refused then throw
  else modify (upd_heap (alter (peer_add_signal d) pid)).

(* channel.unsubscribe() *)
Definition channel_unsubscribe (f : Faults) (ch : nat) : M unit :=
  if f_unsubscribe f ch then throw
  else modify (upd_channels (alter chan_mark_unsubscribed ch)).

(* channel.track({ role }) *)
Definition channel_track (ch : nat) (r : Role) : M unit :=
  modify (upd_channels (alter (chan_add_track r) ch)).

(* channelRef.current?.track({ role }) *)
Definition channelRef_track (r : Role) : M unit :=
  c <- gets w_channelRef ;;
  match c with
  | Some ch => channel_track ch r
  | None => ret tt
  end.

(* t.stop() *)
Definition track_stop (t : nat) : M unit :=
  modify (upd_stopped (λ s, {[t]} ∪ s)).

Definition setTimeout (a : TimerAction) (delay : N) : M nat :=
  h <- gets w_next_timer ;;
  modify (upd_timers <[h := {| tm_delay := delay; tm_action := a |}]>) ;;
  modify (set_next_timer (S h)) ;;
  ret h.

Definition clearTimeout (h : nat) : M unit := modify (upd_timers (delete h)).

(** ** The component's functions *)

(* const setRoomActive = async (active) => { try { await supabase.from('posts')
     .update({ audio_room_active: active }).eq('id', postId)
     .eq('user_id', postOwnerId!) } catch (e) { ... } } *)
Definition setRoomActive (env : Env) (active : bool) : M unit :=
  try_catch
    (modify (upd_posts (λ l, l ++ [{| upd_active := active;
                                      upd_post := e_postId env;
                                      upd_owner := e_postOwnerId env |}]))).

(* function attachLocalTracksToPeer(peer, stream) *)
Definition attachLocalTracksToPeer (f : Faults) (pid : nat) (stream : MediaStream) : M unit :=
  for_each (ms_tracks stream) (λ t, try_catch (peer_addTrack f pid t (ms_id stream))).

(* function attachRemote(remoteId, stream) *)
Definition attachRemote (remoteId : jsstring) (stream : MediaStream) : M unit :=
  modify (upd_remoteStreams <[remoteId := stream]>).

Definition new_peer (env : Env) (initiator : bool) (remoteId : jsstring) : Peer :=
  {| p_initiator := initiator; p_remote := remoteId; p_env := env;
     p_destroyed := false; p_tracks := []; p_signals := [] |}.

(* function createPeer(initiator, remoteId): the new object goes to the end of
   the heap; its listeners are the [on_*] functions below, run with the
   [p_env] and [p_remote] recorded here. *)
Definition createPeer (env : Env) (initiator : bool) (remoteId : jsstring) : M nat :=
  pid <- gets (λ w, length (w_heap w)) ;;
  modify (upd_heap (λ h, h ++ [new_peer env initiator remoteId])) ;;
  ret pid.

(** States of [pc.iceConnectionState] and [pc.connectionState]. *)
Inductive PcState :=
  | st_new | st_checking | st_connecting | st_connected | st_completed
  | st_disconnected | st_failed | st_closed.

(* ['failed', 'disconnected'].includes(state) *)
Definition failed_or_disconnected (st : PcState) : bool :=
  match st with
  | st_failed | st_disconnected => true
  | _ => false
  end.

(* pc.addEventListener('iceconnectionstatechange', ...) *)
Definition on_iceconnectionstatechange
    (env : Env) (remoteId : jsstring) (iceConnectionState : PcState) : M unit :=
  when (failed_or_disconnected iceConnectionState)
       (setTimeout (TRebuild env remoteId) 1500 ;; ret tt).

(* pc.addEventListener('connectionstatechange', ...) *)
Definition on_connectionstatechange
    (env : Env) (remoteId : jsstring) (connectionState : PcState) : M unit :=
  when (failed_or_disconnected connectionState)
       (setTimeout (TRebuild env remoteId) 1500 ;; ret tt).

(* peer.on('signal', (signal) => channelRef.current?.send({ ...,
     payload: { from: profileId, data: signal } })) *)
Definition on_peer_signal (env : Env) (signal : nat) : M unit :=
  c <- gets w_channelRef ;;
  match c with
  | Some ch => modify (upd_channels (alter (chan_add_sent (e_profileId env, signal)) ch))
  | None => ret tt
  end.

(* peer.on('stream', ...) and peer.on('track', ...) *)
Definition on_peer_stream (remoteId : jsstring) (stream : MediaStream) : M unit :=
  attachRemote remoteId stream.

(* function attemptRebuild(remoteId): [remoteId] is the id a peer was created
   for, and no peer is created for an inherited name, so the lookup finds the
   pool's own entry or nothing. *)
Definition attemptRebuild (f : Faults) (env : Env) (remoteId : jsstring) : M unit :=
  current <- gets (λ w, w_pool w !! remoteId) ;;
  match current with
  | None => ret tt
  | Some current =>
      try_catch (peer_destroy f current) ;;
      modify (upd_pool (delete remoteId)) ;;
      modify (upd_remoteStreams (delete remoteId)) ;;
      match e_profileId env with
      | Some profileId =>
          if truthy_str profileId then
            let i := isInitiator profileId remoteId in
            fresh <- createPeer env i remoteId ;;
            modify (upd_pool <[remoteId := fresh]>) ;;
            ls <- gets w_localStream ;;
            match ls with
            | Some stream =>
                when (bool_decide (e_myRole env = speaker))
                     (attachLocalTracksToPeer f fresh stream)
            | None => ret tt
            end
          else ret tt
      | None => ret tt
      end
  end.

(* function stopMic() *)
Definition stopMic : M unit :=
  ls <- gets w_localStream ;;
  match ls with
  | Some stream => for_each (ms_tracks stream) track_stop
  | None => ret tt
  end ;;
  modify (set_localStream None).

(** What [startMic] finds in the browser. *)
Record MicCtx := {
  mc_isSecureContext : bool;
  mc_hasStd : bool;
  mc_hasWebkit : bool;
}.

(** [startMic] up to its [await getUM(...)]: [true] when the request for the
    microphone has been made. *)
Definition startMic_sync (env : Env) (ctx : MicCtx) : M bool :=
  if negb (bool_decide (e_myRole env = speaker)) then ret false
  else
    ls <- gets w_localStream ;;
    match ls with
    | Some _ => ret false
    | None =>
        if negb (mc_isSecureContext ctx) then ret false
        else if negb (mc_hasStd ctx || mc_hasWebkit ctx) then ret false
        else ret true
    end.

(** [startMic] after the [await]: [granted] is the stream obtained, [None]
    when the promise was rejected. *)
Definition startMic_resume (f : Faults) (granted : option MediaStream) : M unit :=
  try_catch
    (match granted with
     | None => throw
     | Some stream =>
         modify (set_localStream (Some stream)) ;;
         peers <- gets w_pool ;;
         for_each (map_to_list peers).*2
                  (λ peer, attachLocalTracksToPeer f peer stream)
     end).

(* async function startMic() *)
Definition startMic (f : Faults) (env : Env) (ctx : MicCtx)
    (granted : option MediaStream) : M unit :=
  requested <- startMic_sync env ctx ;;
  when requested (startMic_resume f granted).

(** *** Presence and signaling effect *)

(** The handlers of the effect exist only past its guard
    [if (!profileId || !postId) return]; [profileId] is a string from there
    on. *)
Definition with_session (env : Env) (body : jsstring → M unit) : M unit :=
  match e_profileId env with
  | Some profileId =>
      if truthy_str profileId && truthy_str (e_postId env) then body profileId
      else ret tt
  | None => ret tt
  end.

(** Presence state as [for (const uid in state)] walks it: each key the
    object holds itself, with the role of its first entry. *)
Definition PresenceState := list (jsstring * Role).

(* channel.on('presence', { event: 'sync' }, ...) *)
Definition on_presence_sync (env : Env) (state : PresenceState) : M unit :=
  with_session env (λ profileId,
    let flat :=
      List.map (λ '(uid, meta_role),
                  {| ap_profile_id := uid;
                     role := if bool_decide (uid = profileId)
                             then e_myRole env else meta_role |})
               state in
    modify (set_participants flat)).

(* channel.on('broadcast', { event: 'signal' }, ({ payload }) => ...) *)
Definition on_signal (f : Faults) (env : Env) (from : jsstring) (data : nat) : M unit :=
  with_session env (λ profileId,
    if bool_decide (from = profileId) then ret tt
    else
      known <- gets (λ w, w_pool w !! from) ;;
      match known with
      | Some _ => ret tt
      | None =>
          (* [!peersRef.current[from]] is false for an inherited name *)
          if inherited from then ret tt
          else
            let i := isInitiator profileId from in
            fresh <- createPeer env (i && false) from ;;
            modify (upd_pool <[from := fresh]>) ;;
            ls <- gets w_localStream ;;
            match ls with
            | Some stream =>
                when (bool_decide (e_myRole env = speaker))
                     (attachLocalTracksToPeer f fresh stream)
            | None => ret tt
            end
      end ;;
      target <- gets (λ w, w_pool w !! from) ;;
      match target with
      | Some peer => peer_signal f peer data
      | None =>
          (* what [Object.prototype] holds has no [signal]: a TypeError *)
          throw
      end).

(** The [channel.subscribe] callback up to [await channel.track(...)]:
    returns the role announced, if any. *)
Definition on_subscribed_sync (env : Env) (channel : nat)
    (subscribed : bool) (state : PresenceState) : M (option Role) :=
  match e_profileId env with
  | Some profileId =>
      if truthy_str profileId && truthy_str (e_postId env) then
        if negb subscribed then ret None
        else if bool_decide (profileId ∈ state.*1) || inherited profileId
        then ret None
        else
          let initial := if isOwner env then speaker else listener in
          modify (set_myRole initial) ;;
          channel_track channel initial ;;
          ret (Some initial)
      else ret None
  | None => ret None
  end.

(** ... and after it. *)
Definition on_subscribed_resume (env : Env) (initial : Role) : M unit :=
  made <- gets w_madeActiveOnce ;;
  when (bool_decide (initial = speaker) && isOwner env && negb made)
       (modify (set_madeActiveOnce true) ;;
        setRoomActive env true).

(* channel.subscribe(async (status) => ...) *)
Definition on_subscribed (env : Env) (channel : nat)
    (subscribed : bool) (state : PresenceState) : M unit :=
  announced <- on_subscribed_sync env channel subscribed state ;;
  match announced with
  | Some initial => on_subscribed_resume env initial
  | None => ret tt
  end.

Definition new_channel (env : Env) (profileId : jsstring) : Channel :=
  {| ch_post := e_postId env; ch_key := profileId; ch_subscribed := true;
     ch_tracked := []; ch_sent := []; ch_unsubscribed := false |}.

(** The effect body: returns the channel its cleanup closes over, or nothing
    when the guard returns early. *)
Definition signaling_effect (env : Env) : M (option nat) :=
  match e_profileId env with
  | Some profileId =>
      if truthy_str profileId && truthy_str (e_postId env) then
        channel <- gets (λ w, length (w_channels w)) ;;
        modify (upd_channels (λ l, l ++ [new_channel env profileId])) ;;
        modify (set_channelRef (Some channel)) ;;
        ret (Some channel)
      else ret None
  | None => ret None
  end.

(** The cleanup the effect returns. *)
Definition signaling_cleanup (f : Faults) (env : Env) (channel : nat) : M unit :=
  hmr <- gets w_hmrDisposing ;;
  if e_isDev env && hmr then ret tt
  else
    try_catch (channel_unsubscribe f channel) ;;
    modify (set_channelRef None) ;;
    peers <- gets w_pool ;;
    for_each (map_to_list peers).*2 (λ p, try_catch (peer_destroy f p)) ;;
    modify (upd_pool (λ _, ∅)) ;;
    stopMic ;;
    modify (upd_remoteStreams (λ _, ∅)) ;;
    when (isOwner env) (setRoomActive env false).

(** *** Hot-reload guard *)

Inductive HmrStatus := hmr_dispose | hmr_apply | hmr_idle | hmr_other.

(* const handler = (status) => { ... } *)
Definition on_hmr_status (status : HmrStatus) : M unit :=
  match status with
  | hmr_dispose => modify (set_hmrDisposing true)
  | hmr_apply | hmr_idle => modify (set_hmrDisposing false)
  | hmr_other => ret tt
  end.

(** *** Peer plan effect *)

Definition candidates (env : Env) (profileId : jsstring) : list PresenceParticipant :=
  filter (λ p, e_myRole env = speaker ∨ role p = speaker)
         (filter (λ p, ap_profile_id p ≠ profileId) (e_participants env)).

(* candidates.forEach((p) => { ... }) *)
Definition plan_link (f : Faults) (env : Env) (profileId : jsstring)
    (p : PresenceParticipant) : M unit :=
  let rid := ap_profile_id p in
  known <- gets (λ w, w_pool w !! rid) ;;
  match known with
  | Some _ => ret tt
  | None =>
      (* [!peersRef.current[rid]] is false for an inherited name *)
      if inherited rid then ret tt
      else
        let i := isInitiator profileId rid in
        fresh <- createPeer env i rid ;;
        modify (upd_pool <[rid := fresh]>) ;;
        ls <- gets w_localStream ;;
        match ls with
        | Some stream =>
            when (bool_decide (e_myRole env = speaker))
                 (attachLocalTracksToPeer f fresh stream)
        | None => ret tt
        end
  end.

(** The effect body: returns the handle of the debounce timer its cleanup
    clears. *)
Definition peer_plan_effect (f : Faults) (env : Env) : M (option nat) :=
  match e_profileId env with
  | Some profileId =>
      if truthy_str profileId then
        for_each (candidates env profileId) (plan_link f env profileId) ;;
        t <- setTimeout (TMic env) 150 ;;
        ret (Some t)
      else ret None
  | None => ret None
  end.

Definition peer_plan_cleanup (t : nat) : M unit := clearTimeout t.

(** The debounced callback: [true] when it is left waiting for the
    microphone. *)
Definition mic_debounced_sync (env : Env) (ctx : MicCtx) : M bool :=
  if bool_decide (e_myRole env = speaker) then startMic_sync env ctx
  else stopMic ;; ret false.

(** *** Role toggles

    Each toggle awaits [channelRef.current?.track(...)]; the part before the
    [await] and the part after it are separate steps of the event loop. *)

Definition becomeSpeaker_sync (env : Env) : M bool :=
  if negb (isOwner env) then ret false
  else
    modify (set_myRole speaker) ;;
    channelRef_track speaker ;;
    ret true.

Definition becomeSpeaker_resume (env : Env) : M unit :=
  made <- gets w_madeActiveOnce ;;
  when (negb made)
       (modify (set_madeActiveOnce true) ;;
        setRoomActive env true).

(* async function becomeSpeaker() *)
Definition becomeSpeaker (env : Env) : M unit :=
  go <- becomeSpeaker_sync env ;;
  when go (becomeSpeaker_resume env).

Definition becomeListener_sync : M unit :=
  modify (set_myRole listener) ;;
  channelRef_track listener.

Definition becomeListener_resume (env : Env) : M unit :=
  when (isOwner env) (setRoomActive env false).

(* async function becomeListener() *)
Definition becomeListener (env : Env) : M unit :=
  becomeListener_sync ;;
  becomeListener_resume env.

Definition endRoom_sync (env : Env) : M bool :=
  if negb (isOwner env) then ret false
  else
    stopMic ;;
    channelRef_track listener ;;
    ret true.

Definition endRoom_resume (env : Env) : M unit :=
  modify (set_myRole listener) ;;
  setRoomActive env false.

(* async function endRoom() *)
Definition endRoom (env : Env) : M unit :=
  go <- endRoom_sync env ;;
  when go (endRoom_resume env).

(** ** The event loop

    One step runs one callback to its end or to its first [await]; a handler
    that awaits leaves its continuation in [w_pending], to be resumed by a
    later step.  Every callback may be one captured by an earlier render, so
    an event carries the [Env] of its closure. *)

Definition suspend (k : Suspended) : M unit := modify (upd_pending (λ l, l ++ [k])).

Inductive Event :=
  | EHmrStatus (status : HmrStatus)
  | ESignalingEffect (env : Env)
  | ESignalingCleanup (env : Env) (channel : nat)
  | EPresenceSync (env : Env) (state : PresenceState)
  | ESignal (env : Env) (from : jsstring) (data : nat)
  | ESubscribed (env : Env) (channel : nat) (subscribed : bool) (state : PresenceState)
  | EPeerPlanEffect (env : Env)
  | EPeerPlanCleanup (t : nat)
  | EIceState (peer : nat) (st : PcState)
  | EConnState (peer : nat) (st : PcState)
  | EPeerSignal (peer : nat) (signal : nat)
  | EPeerStream (peer : nat) (stream : MediaStream)
  | ETimer (h : nat) (ctx : MicCtx)
  | EBecomeSpeaker (env : Env)
  | EBecomeListener (env : Env)
  | EEndRoom (env : Env)
  | EResume (k : nat) (granted : option MediaStream).

(** A listener of a peer runs with what [createPeer] recorded for it. *)
Definition peer_listener (peer : nat) (body : Env → jsstring → M unit) : M unit :=
  p <- gets (λ w, w_heap w !! peer) ;;
  match p with
  | Some p => body (p_env p) (p_remote p)
  | None => ret tt
  end.

Definition fire_timer (f : Faults) (h : nat) (ctx : MicCtx) : M unit :=
  t <- gets (λ w, w_timers w !! h) ;;
  match t with
  | None => ret tt
  | Some t =>
      modify (upd_timers (delete h)) ;;
      match tm_action t with
      | TRebuild env remoteId => attemptRebuild f env remoteId
      | TMic env =>
          waiting <- mic_debounced_sync env ctx ;;
          when waiting (suspend KStartMic)
      end
  end.

Definition resume (f : Faults) (k : nat) (granted : option MediaStream) : M unit :=
  s <- gets (λ w, w_pending w !! k) ;;
  match s with
  | None => ret tt
  | Some s =>
      modify (upd_pending (delete k)) ;;
      match s with
      | KSubscribed env initial => on_subscribed_resume env initial
      | KStartMic => startMic_resume f granted
      | KBecomeSpeaker env => becomeSpeaker_resume env
      | KBecomeListener env => becomeListener_resume env
      | KEndRoom env => endRoom_resume env
      end
  end.

Definition handle (f : Faults) (e : Event) : M unit :=
  match e with
  | EHmrStatus status => on_hmr_status status
  | ESignalingEffect env => signaling_effect env ;; ret tt
  | ESignalingCleanup env channel => signaling_cleanup f env channel
  | EPresenceSync env state => on_presence_sync env state
  | ESignal env from data => on_signal f env from data
  | ESubscribed env channel subscribed state =>
      announced <- on_subscribed_sync env channel subscribed state ;;
      match announced with
      | Some initial => suspend (KSubscribed env initial)
      | None => ret tt
      end
  | EPeerPlanEffect env => peer_plan_effect f env ;; ret tt
  | EPeerPlanCleanup t => peer_plan_cleanup t
  | EIceState peer st =>
      peer_listener peer (λ env remoteId, on_iceconnectionstatechange env remoteId st)
  | EConnState peer st =>
      peer_listener peer (λ env remoteId, on_connectionstatechange env remoteId st)
  | EPeerSignal peer signal =>
      peer_listener peer (λ env _, on_peer_signal env signal)
  | EPeerStream peer stream =>
      peer_listener peer (λ _ remoteId, on_peer_stream remoteId stream)
  | ETimer h ctx => fire_timer f h ctx
  | EBecomeSpeaker env =>
      go <- becomeSpeaker_sync env ;;
      when go (suspend (KBecomeSpeaker env))
  | EBecomeListener env =>
      becomeListener_sync ;;
      suspend (KBecomeListener env)
  | EEndRoom env =>
      go <- endRoom_sync env ;;
      when go (suspend (KEndRoom env))
  | EResume k granted => resume f k granted
  end.

(** A session: the events delivered since the component mounted, each with
    the faults of its library calls. *)
Definition run (tr : list (Faults * Event)) (w : World) : World :=
  foldl (λ w fe, exec (handle fe.1 fe.2) w) w tr.

(** The number of requests in the log that set [audio_room_active] to true. *)
Definition true_writes (l : list PostUpdate) : nat :=
  length (filter (λ u, upd_active u = true) l).

(** ** Vocabulary of the statements *)

(** What [attachLocalTracksToPeer] makes of a peer: [addTrack] for each track
    in turn, a throwing call skipped. *)
Definition attached (f : Faults) (pid sid : nat) (ts : list nat) (p : Peer) : Peer :=
  foldl (λ p t, if f_addTrack f pid t then p else peer_add_track t sid p) p ts.

(** The peer a handler hangs in the pool: tracks go on only when the closure's
    role is speaker and a local stream is held. *)
Definition linked (f : Faults) (env : Env) (ls : option MediaStream)
    (pid : nat) (p : Peer) : Peer :=
  match ls with
  | Some stream =>
      if bool_decide (e_myRole env = speaker)
      then attached f pid (ms_id stream) (ms_tracks stream) p
      else p
  | None => p
  end.

(** What a loop of guarded [destroy] calls makes of the heap. *)
Definition destroyed_all (f : Faults) (ps : list nat) (h : list Peer) : list Peer :=
  foldl (λ h p, if f_destroy f p then h else alter peer_mark_destroyed p h) h ps.

(** The tracks [stopMic] stops. *)
Definition held_tracks (ls : option MediaStream) : gset nat :=
  match ls with
  | Some stream => list_to_set (ms_tracks stream)
  | None => ∅
  end.

(** The world [stopMic] leaves. *)
Definition mic_stopped (w : World) : World :=
  set_localStream None (upd_stopped (λ s, held_tracks (w_localStream w) ∪ s) w).

(** The world the cleanup of the signaling effect leaves when it is not held
    back by the hot-reload guard. *)
Definition torn_down (f : Faults) (env : Env) (channel : nat) (w : World) : World :=
  {| w_participants := w_participants w;
     w_myRole := w_myRole w;
     w_remoteStreams := ∅;
     w_localStream := None;
     w_pool := ∅;
     w_channelRef := None;
     w_madeActiveOnce := w_madeActiveOnce w;
     w_hmrDisposing := w_hmrDisposing w;
     w_heap := destroyed_all f (map_to_list (w_pool w)).*2 (w_heap w);
     w_channels :=
       if f_unsubscribe f channel then w_channels w
       else alter chan_mark_unsubscribed channel (w_channels w);
     w_stopped := held_tracks (w_localStream w) ∪ w_stopped w;
     w_posts :=
       w_posts w ++
       (if isOwner env
        then [{| upd_active := false; upd_post := e_postId env;
                 upd_owner := e_postOwnerId env |}]
        else []);
     w_timers := w_timers w;
     w_next_timer := w_next_timer w;
     w_pending := w_pending w |}.

(** A computation preserves an invariant, whether it throws or not. *)
Definition preserves {A} (I : World → Prop) (m : M A) : Prop :=
  ∀ w, I w → I (exec m w).


(** Every pool entry points at a peer of the heap built for that remote id. *)
Definition pool_wf (w : World) : Prop :=
  ∀ rid p, w_pool w !! rid = Some p →
    ∃ pr, w_heap w !! p = Some pr ∧ p_remote pr = rid.

(** An explicit toggle to speaker. *)
Definition toggles_speaker (e : Event) : bool :=
  match e with
  | EBecomeSpeaker _ => true
  | _ => false
  end.

(** Every peer of the heap that has not been destroyed is the pool's entry
    for its remote id: at most one live link per remote id. *)
Definition live_in_pool (w : World) : Prop :=
  ∀ p pr, w_heap w !! p = Some pr → p_destroyed pr = false →
          w_pool w !! p_remote pr = Some p.

(** Every closure held by a peer's listeners or by a pending rebuild timer
    was made in a render whose [profileId] was set. *)
Definition closures_ok (w : World) : Prop :=
  (∀ p pr, w_heap w !! p = Some pr → truthy (e_profileId (p_env pr)) = true)
  ∧ (∀ h t env rid, w_timers w !! h = Some t → tm_action t = TRebuild env rid →
                    truthy (e_profileId env) = true).

(** No [destroy] call throws. *)
Definition calm (f : Faults) : Prop := ∀ p, f_destroy f p = false.

(** *** The specification's wording of three properties

    These follow the specification, not the source; each is compared with the
    source below. *)


(** "Owner joins room (role starts listener)", the active flag turning true
    only "after an explicit toggle to speaker". *)
Definition joins_as_listener (tr : list (Faults * Event)) : Prop :=
  forallb (λ fe, negb (toggles_speaker fe.2)) tr = true →
  w_myRole (run tr init) = listener ∧ true_writes (w_posts (run tr init)) = 0.

(** "Subsequent speaker/listener toggles ... do not gate on ownership after
    the room has been activated once." *)
Definition toggle_ungated_once_active (env : Env) (w : World) : Prop :=
  true_writes (w_posts w) = 1 →
  w_myRole (exec (becomeSpeaker env) w) = speaker.

(** ** Sample sessions, for the worked instances *)

Definition alice : Env :=
  {| e_profileId := Some (str "alice"); e_postOwnerId := Some (str "alice");
     e_postId := str "post-1"; e_participants := []; e_myRole := listener;
     e_isDev := false |}.

(** alice's closures once she speaks and presence lists bob and carol. *)
Definition alice_speaking : Env :=
  {| e_profileId := Some (str "alice"); e_postOwnerId := Some (str "alice");
     e_postId := str "post-1";
     e_participants :=
       [ {| ap_profile_id := str "alice"; role := speaker |};
         {| ap_profile_id := str "bob"; role := listener |};
         {| ap_profile_id := str "carol"; role := listener |} ];
     e_myRole := speaker;
     e_isDev := false |}.

Definition no_faults : Faults :=
  {| f_unsubscribe := λ _, false; f_destroy := λ _, false;
     f_addTrack := λ _ _, false; f_signal := λ _, false |}.

(** Every library call that can throw does. *)
Definition all_faults : Faults :=
  {| f_unsubscribe := λ _, true; f_destroy := λ _, true;
     f_addTrack := λ _ _, true; f_signal := λ _, true |}.

Definition mic : MediaStream := {| ms_id := 0; ms_tracks := [0; 1] |}.

Definition browser : MicCtx :=
  {| mc_isSecureContext := true; mc_hasStd := true; mc_hasWebkit := false |}.

(** The owner alice has joined as speaker, planned links to bob and carol,
    obtained the microphone, and hears bob. *)
Definition calling : list (Faults * Event) :=
  [ (no_faults, ESignalingEffect alice);
    (no_faults, ESubscribed alice 0 true []);
    (no_faults, EResume 0 None);
    (no_faults, EPeerPlanEffect alice_speaking);
    (no_faults, ETimer 0 browser);
    (no_faults, EResume 0 (Some mic));
    (no_faults, EPeerStream 0 {| ms_id := 5; ms_tracks := [9] |}) ].

Definition in_call : World := run calling init.

(** ... and the link to bob has just reported a failed ICE state. *)
Definition bob_failed : list (Faults * Event) :=
  calling ++ [ (no_faults, EIceState 0 st_failed) ].

(** The owner joins with presence already announced, toggles to speaker
    and back to listener. *)
Definition toggling : list (Faults * Event) :=
  [ (no_faults, ESignalingEffect alice);
    (no_faults, ESubscribed alice 0 true [(str "alice", listener)]);
    (no_faults, EBecomeSpeaker alice);
    (no_faults, EResume 0 None);
    (no_faults, EBecomeListener alice_speaking);
    (no_faults, EResume 0 None) ].

(** The owner alice joins: the effect subscribes, the subscription is
    acknowledged with no presence yet, and the callback runs to its end. *)
Definition owner_joining : list (Faults * Event) :=
  [ (no_faults, ESignalingEffect alice);
    (no_faults, ESubscribed alice 0 true []);
    (no_faults, EResume 0 None) ].

(** bob, who does not own the post. *)
Definition bob : Env :=
  {| e_profileId := Some (str "bob"); e_postOwnerId := Some (str "alice");
     e_postId := str "post-1"; e_participants := []; e_myRole := listener;
     e_isDev := false |}.

(** carol listens in a room where presence lists bob as a listener too. *)
Definition carol : Env :=
  {| e_profileId := Some (str "carol"); e_postOwnerId := Some (str "alice");
     e_postId := str "post-1";
     e_participants :=
       [ {| ap_profile_id := str "alice"; role := speaker |};
         {| ap_profile_id := str "bob"; role := listener |};
         {| ap_profile_id := str "carol"; role := listener |} ];
     e_myRole := listener;
     e_isDev := false |}.

(** ** The participant list as rendered

    [[...new Map(participants.map(p => [p.ap_profile_id, p])).values()]]: a
    [Map] keeps its keys in the order of their first insertion, and a later
    [set] of a key already present replaces the value where it stands. *)

(* Map.prototype.set *)
Fixpoint map_set (k : jsstring) (v : PresenceParticipant)
    (m : list (jsstring * PresenceParticipant)) : list (jsstring * PresenceParticipant) :=
  match m with
  | [] => [(k, v)]
  | (k', v') :: m' =>
      if bool_decide (k' = k) then (k, v) :: m' else (k', v') :: map_set k v m'
  end.

(* new Map(entries) *)
Definition map_of_entries (entries : list (jsstring * PresenceParticipant))
    : list (jsstring * PresenceParticipant) :=
  foldl (λ m e, map_set e.1 e.2 m) [] entries.

(** The participants that get a row. *)
Definition rows (participants : list PresenceParticipant) : list PresenceParticipant :=
  (map_of_entries (List.map (λ p, (ap_profile_id p, p)) participants)).*2.

(** ** Renders *)

(** The values the next render captures, once handlers have written the state
    cells [participants] and [myRole]. *)
Definition rerender (env : Env) (w : World) : Env :=
  {| e_profileId := e_profileId env; e_postOwnerId := e_postOwnerId env;
     e_postId := e_postId env; e_participants := w_participants w;
     e_myRole := w_myRole w; e_isDev := e_isDev env |}.

(** ** Vocabulary of the further statements *)


(** Timer handles are handed out in increasing order: every pending timer has
    a handle below the next one. *)
Definition timers_fresh (w : World) : Prop :=
  ∀ h, is_Some (w_timers w !! h) → h < w_next_timer w.

(** The tracks [attachLocalTracksToPeer] gets onto a peer: those whose
    [addTrack] does not throw, in the stream's order. *)
Definition accepted_tracks (f : Faults) (pid : nat) (s : MediaStream) : list (nat * nat) :=
  List.map (λ t, (t, ms_id s)) (filter (λ t, f_addTrack f pid t = false) (ms_tracks s)).

(** A suspended handler that writes the active flag without asking again
    whether the closure is the owner's was suspended by the owner. *)
Definition issued_by_owner (k : Suspended) : Prop :=
  match k with
  | KBecomeSpeaker env | KEndRoom env => isOwner env = true
  | _ => True
  end.

(** Every request names an owner, and so will those still to come from
    suspended handlers. *)
Definition owner_scoped (w : World) : Prop :=
  Forall (λ u, truthy (upd_owner u) = true) (w_posts w)
  ∧ Forall issued_by_owner (w_pending w).




(** ** Further sample values *)

(** [addTrack] throws for track 0 and for no other. *)
Definition picky : Faults :=
  {| f_unsubscribe := λ _, false; f_destroy := λ _, false;
     f_addTrack := λ _ t, bool_decide (t = 0); f_signal := λ _, false |}.

Definition insecure : MicCtx :=
  {| mc_isSecureContext := false; mc_hasStd := true; mc_hasWebkit := true |}.

(** The owner alice has joined as speaker and planned links to bob and carol;
    the microphone has not been asked for yet. *)
Definition planned : list (Faults * Event) :=
  [ (no_faults, ESignalingEffect alice);
    (no_faults, ESubscribed alice 0 true []);
    (no_faults, EResume 0 None);
    (no_faults, EPeerPlanEffect alice_speaking) ].

(** A development build, where the hot-reload guard is armed. *)
Definition alice_dev : Env :=
  {| e_profileId := Some (str "alice"); e_postOwnerId := Some (str "alice");
     e_postId := str "post-1"; e_participants := []; e_myRole := listener;
     e_isDev := true |}.


(** The session of [bob_failed], with both rebuild timers of the failed link
    fired, the ICE one and the connection one. *)
Definition rebuilt_twice : list (Faults * Event) :=
  bob_failed ++ [ (no_faults, EConnState 0 st_failed);
                  (no_faults, ETimer 1 browser);
                  (no_faults, ETimer 2 browser) ].

(** Presence as carol finds it: alice speaks, bob and carol listen. *)
Definition presence : PresenceState :=
  [ (str "alice", speaker); (str "bob", listener); (str "carol", listener) ].

(** alice leaves while the browser still asks her for the microphone. *)
Definition left_while_asking : list (Faults * Event) :=
  planned ++ [ (no_faults, ETimer 0 browser);
               (no_faults, ESignalingCleanup alice_speaking 0) ].


(** * Proofs *)

(** ** String order *)

Lemma str_lt_irrefl (x : jsstring) : str_lt x x = false.
Proof.
  induction x as [|a x IH]; simpl; [done|].
  by rewrite N.eqb_refl.
Qed.

Lemma str_lt_asym (x y : jsstring) : str_lt x y = true → str_lt y x = false.
Proof.
  revert y. induction x as [|a x IH]; intros [|b y]; simpl; try done.
  destruct (N.eqb_spec a b) as [->|Hab].
  - rewrite N.eqb_refl. apply IH.
  - intros Hlt%N.ltb_lt.
    destruct (N.eqb_spec b a) as [->|_]; [done|].
    apply N.ltb_ge. lia.
Qed.

Lemma str_lt_total (x y : jsstring) :
  x ≠ y → str_lt x y = false → str_lt y x = true.
Proof.
  revert y. induction x as [|a x IH]; intros [|b y]; simpl; try done.
  intros Hne.
  destruct (N.eqb_spec a b) as [->|Hab].
  - rewrite N.eqb_refl. apply IH. congruence.
  - intros Hge%N.ltb_ge.
    destruct (N.eqb_spec b a) as [->|_]; [done|].
    apply N.ltb_lt. lia.
Qed.

(** C1: for distinct identifiers A and B, [isInitiator A B] is the negation of
    [isInitiator B A]: the two ends of a pair elect the same single
    initiator. *)
Theorem isInitiator_antisymmetric (A B : jsstring) :
  A ≠ B → isInitiator A B = negb (isInitiator B A).
Proof.
  intros Hne. unfold isInitiator.
  destruct (str_lt B A) eqn:HBA; simpl.
  - by apply str_lt_asym.
  - apply str_lt_total; [congruence|done].
Qed.

Lemma isInitiator_antisymmetric_witness :
  str "alice" ≠ str "bob" ∧
  isInitiator (str "alice") (str "bob") = negb (isInitiator (str "bob") (str "alice")).
Proof.
  split; [by vm_compute|].
  apply (isInitiator_antisymmetric (str "alice") (str "bob")). by vm_compute.
Defined.

(** ** The monad *)

Lemma world_eta (w : World) :
  {| w_participants := w_participants w; w_myRole := w_myRole w;
     w_remoteStreams := w_remoteStreams w; w_localStream := w_localStream w;
     w_pool := w_pool w; w_channelRef := w_channelRef w;
     w_madeActiveOnce := w_madeActiveOnce w; w_hmrDisposing := w_hmrDisposing w;
     w_heap := w_heap w; w_channels := w_channels w; w_stopped := w_stopped w;
     w_posts := w_posts w; w_timers := w_timers w; w_next_timer := w_next_timer w;
     w_pending := w_pending w |} = w.
Proof. by destruct w. Qed.

Lemma upd_heap_id (g : list Peer → list Peer) (w : World) :
  g (w_heap w) = w_heap w → upd_heap g w = w.
Proof. intros H. unfold upd_heap. rewrite H. apply world_eta. Qed.

Lemma upd_heap_upd_heap (g h : list Peer → list Peer) (w : World) :
  upd_heap g (upd_heap h w) = upd_heap (λ l, g (h l)) w.
Proof. done. Qed.

Lemma upd_heap_ext (g h : list Peer → list Peer) (w : World) :
  g (w_heap w) = h (w_heap w) → upd_heap g w = upd_heap h w.
Proof. intros H. unfold upd_heap. by rewrite H. Qed.

Lemma bind_run {A B} (m : M A) (k : A → M B) (w w' : World) (a : A) :
  m w = (w', Ok a) → bind m k w = k a w'.
Proof. intros H. unfold bind. by rewrite H. Qed.

(** *** Invariants through the monad *)

Section preserves.
Context (I : World → Prop).

Lemma preserves_ret {A} (a : A) : preserves I (ret a).
Proof. by intros w H. Qed.

Lemma preserves_throw {A} : preserves I (@throw A).
Proof. by intros w H. Qed.

Lemma preserves_gets {A} (g : World → A) : preserves I (gets g).
Proof. by intros w H. Qed.

Lemma preserves_modify (g : World → World) :
  (∀ w, I w → I (g w)) → preserves I (modify g).
Proof. intros Hg w H. by apply Hg. Qed.

Lemma preserves_bind {A B} (m : M A) (k : A → M B) :
  preserves I m → (∀ a, preserves I (k a)) → preserves I (bind m k).
Proof.
  intros Hm Hk w H. specialize (Hm w H). unfold exec, bind in *.
  destruct (m w) as [w' [a|]]; simpl in *; [by apply Hk|done].
Qed.

Lemma preserves_try_catch (m : M unit) : preserves I m → preserves I (try_catch m).
Proof. intros Hm w H. apply (Hm w H). Qed.

Lemma preserves_when (b : bool) (m : M unit) : preserves I m → preserves I (when b m).
Proof. intros Hm. destruct b; [done|apply preserves_ret]. Qed.

Lemma preserves_for_each {A} (l : list A) (body : A → M unit) :
  (∀ x, preserves I (body x)) → preserves I (for_each l body).
Proof.
  intros Hb. induction l as [|x l IH]; simpl.
  - apply preserves_ret.
  - apply preserves_bind; [apply Hb|done].
Qed.
End preserves.

(** One step of a proof that a handler preserves an invariant whose statement
    does not mention what the handler writes. *)
Ltac preserves_step :=
  lazymatch goal with
  | |- preserves _ (ret _) => apply preserves_ret
  | |- preserves _ throw => apply preserves_throw
  | |- preserves _ (gets _) => apply preserves_gets
  | |- preserves _ (bind _ _) => apply preserves_bind; [|intros ?]
  | |- preserves _ (try_catch _) => apply preserves_try_catch
  | |- preserves _ (when _ _) => apply preserves_when
  | |- preserves _ (for_each _ _) => apply preserves_for_each; intros ?
  | |- preserves _ (match ?x with _ => _ end) => destruct x
  | |- preserves _ (modify _) =>
      apply preserves_modify; let H := fresh in intros ? H; exact H
  end.

(** ** Attaching tracks *)

Lemma attach_run (f : Faults) (pid : nat) (s : MediaStream) (w : World) :
  attachLocalTracksToPeer f pid s w
  = (upd_heap (alter (attached f pid (ms_id s) (ms_tracks s)) pid) w, Ok tt).
Proof.
  unfold attachLocalTracksToPeer, attached.
  generalize (ms_id s) as sid. intros sid.
  induction (ms_tracks s) as [|t ts IH] in w |- *; simpl.
  - unfold ret. f_equal. symmetry. apply upd_heap_id.
    by apply list_alter_id.
  - unfold bind at 1. unfold try_catch, peer_addTrack.
    destruct (f_addTrack f pid t); simpl; [apply IH|].
    rewrite IH, upd_heap_upd_heap. f_equal. apply upd_heap_ext.
    by rewrite list_alter_alter_eq.
Qed.

Lemma alter_snoc {A} (g : A → A) (l : list A) (x : A) :
  alter g (length l) (l ++ [x]) = l ++ [g x].
Proof.
  rewrite <- (Nat.add_0_r (length l)) at 1. by rewrite alter_app_r.
Qed.

(** The three places that open a link ([on_signal], the peer plan and
    [attemptRebuild]) run the same lines: [createPeer], the pool entry, the
    local tracks. *)
Lemma open_link_run (f : Faults) (env : Env) (i : bool) (rid : jsstring) (w : World) :
  (fresh <- createPeer env i rid ;;
   modify (upd_pool <[rid := fresh]>) ;;
   ls <- gets w_localStream ;;
   match ls with
   | Some stream =>
       when (bool_decide (e_myRole env = speaker))
            (attachLocalTracksToPeer f fresh stream)
   | None => ret tt
   end) w
  = (upd_pool <[rid := length (w_heap w)]>
       (upd_heap (λ h, h ++ [linked f env (w_localStream w) (length (w_heap w))
                                    (new_peer env i rid)]) w),
     Ok tt).
Proof.
  unfold createPeer, bind, gets, modify, ret, linked; simpl.
  destruct (w_localStream w) as [s|]; [|done].
  destruct (bool_decide (e_myRole env = speaker)); simpl; [|done].
  rewrite attach_run. f_equal.
  unfold upd_heap, upd_pool; simpl. f_equal.
  apply alter_snoc.
Qed.

Lemma attached_remote (f : Faults) (pid sid : nat) (ts : list nat) (p : Peer) :
  p_remote (attached f pid sid ts p) = p_remote p
  ∧ p_initiator (attached f pid sid ts p) = p_initiator p
  ∧ p_destroyed (attached f pid sid ts p) = p_destroyed p
  ∧ p_env (attached f pid sid ts p) = p_env p
  ∧ p_signals (attached f pid sid ts p) = p_signals p.
Proof.
  unfold attached. induction ts as [|t ts IH] in p |- *; simpl; [done|].
  destruct (f_addTrack f pid t); [apply IH|].
  destruct (IH (peer_add_track t sid p)) as (-> & -> & -> & -> & ->). done.
Qed.

Lemma linked_fields (f : Faults) (env : Env) (ls : option MediaStream)
    (pid : nat) (p : Peer) :
  p_remote (linked f env ls pid p) = p_remote p
  ∧ p_initiator (linked f env ls pid p) = p_initiator p
  ∧ p_destroyed (linked f env ls pid p) = p_destroyed p
  ∧ p_env (linked f env ls pid p) = p_env p
  ∧ p_signals (linked f env ls pid p) = p_signals p.
Proof.
  unfold linked. destruct ls as [s|]; [|done].
  destruct (bool_decide (e_myRole env = speaker)); [|done].
  apply attached_remote.
Qed.

(** ** Signals from the relay *)

Lemma peer_signal_run (f : Faults) (pid d : nat) (w : World) :
  peer_signal f pid d w
  = if signal_throws f pid w then (w, Throw)
    else (upd_heap (alter (peer_add_signal d) pid) w, Ok tt).
Proof. unfold peer_signal, bind, gets. by destruct (signal_throws f pid w). Qed.

Lemma on_signal_run (f : Faults) (env : Env) (me from : jsstring)
    (data : nat) (w : World) :
  e_profileId env = Some me →
  truthy_str me = true →
  truthy_str (e_postId env) = true →
  on_signal f env from data w =
    if bool_decide (from = me) then (w, Ok tt)
    else
      match w_pool w !! from with
      | Some peer =>
          if signal_throws f peer w then (w, Throw)
          else (upd_heap (alter (peer_add_signal data) peer) w, Ok tt)
      | None =>
          if inherited from then (w, Throw)
          else
            let fresh := length (w_heap w) in
            let responder :=
              linked f env (w_localStream w) fresh (new_peer env false from) in
            if f_signal f fresh
            then (upd_pool <[from := fresh]> (upd_heap (λ h, h ++ [responder]) w),
                  Throw)
            else (upd_pool <[from := fresh]>
                    (upd_heap (λ h, h ++ [peer_add_signal data responder]) w),
                  Ok tt)
      end.
Proof.
  intros Hme Hp Hpost. unfold on_signal, with_session.
  rewrite Hme, Hp, Hpost. simpl.
  destruct (bool_decide (from = me)); [done|].
  unfold bind at 1. unfold gets at 1.
  destruct (w_pool w !! from) as [peer|] eqn:Hknown.
  - unfold bind at 1. unfold ret at 1. unfold bind at 1. unfold gets at 1.
    by rewrite Hknown, peer_signal_run.
  - destruct (inherited from).
    { unfold bind at 1. unfold ret at 1. unfold bind at 1. unfold gets at 1.
      by rewrite Hknown. }
    rewrite andb_false_r.
    erewrite bind_run by apply open_link_run.
    unfold bind at 1. unfold gets at 1. simpl.
    rewrite lookup_insert_eq, peer_signal_run.
    destruct (linked_fields f env (w_localStream w) (length (w_heap w))
                (new_peer env false from)) as (_ & _ & Hd & _).
    unfold signal_throws. simpl.
    rewrite list_lookup_middle by done. simpl. rewrite Hd. simpl.
    rewrite orb_false_r.
    destruct (f_signal f (length (w_heap w))); [done|].
    f_equal. unfold upd_heap, upd_pool. simpl. f_equal.
    apply alter_snoc.
Qed.



(** ** Destroying links and stopping the microphone *)

Lemma destroy_loop_run (f : Faults) (ps : list nat) (w : World) :
  for_each ps (λ p, try_catch (peer_destroy f p)) w
  = (upd_heap (destroyed_all f ps) w, Ok tt).
Proof.
  unfold destroyed_all.
  induction ps as [|p ps IH] in w |- *; simpl.
  - unfold ret. f_equal. symmetry. by apply upd_heap_id.
  - unfold bind at 1. unfold try_catch, peer_destroy.
    destruct (f_destroy f p); simpl; [apply IH|].
    by rewrite IH, upd_heap_upd_heap.
Qed.

Lemma mark_destroyed_idem (o : option Peer) :
  peer_mark_destroyed <$> (peer_mark_destroyed <$> o) = peer_mark_destroyed <$> o.
Proof. by destruct o. Qed.

Lemma destroyed_all_lookup (f : Faults) (ps : list nat) (h : list Peer) (p : nat) :
  destroyed_all f ps h !! p
  = if bool_decide (p ∈ ps) && negb (f_destroy f p)
    then peer_mark_destroyed <$> h !! p
    else h !! p.
Proof.
  unfold destroyed_all.
  induction ps as [|q ps IH] in h |- *; simpl; [done|].
  rewrite IH. clear IH.
  destruct (decide (p = q)) as [->|Hne].
  - rewrite (bool_decide_eq_true_2 (q ∈ q :: ps)) by (apply elem_of_cons; auto).
    destruct (f_destroy f q); simpl.
    + by rewrite andb_false_r.
    + rewrite list_lookup_alter_eq, andb_true_r.
      destruct (bool_decide (q ∈ ps)); [apply mark_destroyed_idem|done].
  - assert (bool_decide (p ∈ q :: ps) = bool_decide (p ∈ ps)) as ->.
    { apply bool_decide_ext. rewrite elem_of_cons. split; [|by right].
      by intros [?|?]. }
    destruct (f_destroy f q); [done|].
    by rewrite list_lookup_alter_ne.
Qed.

Lemma stop_tracks_run (ts : list nat) (w : World) :
  for_each ts track_stop w = (upd_stopped (λ s, list_to_set ts ∪ s) w, Ok tt).
Proof.
  induction ts as [|t ts IH] in w |- *; simpl.
  - unfold ret. f_equal. unfold upd_stopped.
    rewrite (left_id_L ∅ (∪)). by rewrite world_eta.
  - unfold bind at 1. unfold track_stop at 1, modify.
    rewrite IH. f_equal. unfold upd_stopped. simpl. f_equal.
    rewrite (assoc_L (∪)). f_equal. apply (comm_L (∪)).
Qed.

Lemma stopMic_run (w : World) : stopMic w = (mic_stopped w, Ok tt).
Proof.
  unfold stopMic, mic_stopped, held_tracks, bind, gets, modify.
  destruct (w_localStream w) as [s|] eqn:Hls.
  - by rewrite stop_tracks_run.
  - unfold ret, upd_stopped, set_localStream. simpl.
    by rewrite (left_id_L ∅ (∪)).
Qed.

(** ** Teardown *)

Lemma signaling_cleanup_run (f : Faults) (env : Env) (channel : nat) (w : World) :
  signaling_cleanup f env channel w =
    if e_isDev env && w_hmrDisposing w then (w, Ok tt)
    else (torn_down f env channel w, Ok tt).
Proof.
  unfold signaling_cleanup. unfold bind at 1. unfold gets at 1.
  destruct (e_isDev env && w_hmrDisposing w); [done|].
  unfold bind at 1. unfold try_catch at 1. unfold bind at 1. unfold modify at 1.
  unfold bind at 1. unfold gets at 1.
  unfold bind at 1. rewrite destroy_loop_run.
  unfold bind at 1. unfold modify at 1.
  unfold bind at 1. rewrite stopMic_run.
  unfold bind at 1. unfold modify at 1.
  unfold torn_down, setRoomActive, when, try_catch, modify, ret, channel_unsubscribe, throw.
  destruct (isOwner env), (f_unsubscribe f channel); simpl;
    rewrite ?app_nil_r; reflexivity.
Qed.

(** C8: unless the hot-reload guard holds it back, the cleanup runs to its end
    whatever the guarded calls do: it never throws, it drops the channel
    reference, empties the pool, stops every track of the held stream, releases
    it and clears the remote streams; the channel is unsubscribed and every
    pooled peer destroyed where that call does not throw; and an owner's
    cleanup ends with a request setting the active flag to false. *)
Theorem teardown_completes (f : Faults) (env : Env) (channel : nat) (w : World) :
  (e_isDev env && w_hmrDisposing w = true →
   signaling_cleanup f env channel w = (w, Ok tt))
  ∧ (e_isDev env && w_hmrDisposing w = false →
     let w' := exec (signaling_cleanup f env channel) w in
     result (signaling_cleanup f env channel) w = Ok tt
     ∧ w' = torn_down f env channel w
     ∧ w_channelRef w' = None
     ∧ w_pool w' = ∅
     ∧ w_localStream w' = None
     ∧ w_remoteStreams w' = ∅
     ∧ (∀ s t, w_localStream w = Some s → t ∈ ms_tracks s → t ∈ w_stopped w')
     ∧ (∀ c, f_unsubscribe f channel = false →
             w_channels w !! channel = Some c →
             w_channels w' !! channel = Some (chan_mark_unsubscribed c))
     ∧ (∀ rid p pr, w_pool w !! rid = Some p →
                    w_heap w !! p = Some pr →
                    f_destroy f p = false →
                    w_heap w' !! p = Some (peer_mark_destroyed pr))
     ∧ (isOwner env = true →
        w_posts w' = w_posts w ++ [{| upd_active := false; upd_post := e_postId env;
                                      upd_owner := e_postOwnerId env |}])).
Proof.
  unfold exec, result. rewrite signaling_cleanup_run.
  split; intros Hhmr; rewrite Hhmr; [done|]. simpl.
  repeat split; try done.
  - intros s t Hs Ht. rewrite Hs. simpl.
    apply elem_of_union_l, elem_of_list_to_set, Ht.
  - intros c Hf Hc. by rewrite Hf, list_lookup_alter_eq, Hc.
  - intros rid p pr Hp Hpr Hf.
    rewrite destroyed_all_lookup, Hf, Hpr.
    rewrite bool_decide_eq_true_2; [done|].
    apply list_elem_of_fmap. exists (rid, p). split; [done|].
    by apply elem_of_map_to_list.
  - by intros ->.
Qed.

Lemma teardown_completes_witness :
  let w' := exec (signaling_cleanup all_faults alice 0) in_call in
  result (signaling_cleanup all_faults alice 0) in_call = Ok tt
  ∧ w_channelRef w' = None ∧ w_pool w' = ∅ ∧ w_localStream w' = None
  ∧ w_remoteStreams w' = ∅
  ∧ w_stopped w' = {[0; 1]}
  ∧ w_posts w' = w_posts in_call ++ [{| upd_active := false; upd_post := str "post-1";
                                        upd_owner := Some (str "alice") |}].
Proof.
  destruct (teardown_completes all_faults alice 0 in_call) as [_ H].
  destruct (H eq_refl) as (Hr & Hw & Hc & Hp & Hl & Hs & _ & _ & _ & Ho).
  intros w'. subst w'.
  split; [exact Hr|]. split; [exact Hc|]. split; [exact Hp|].
  split; [exact Hl|]. split; [exact Hs|]. split.
  - rewrite Hw. by vm_compute.
  - by apply Ho.
Defined.

(** ** Rebuild timers without a pool entry *)



(** ** Microphone *)

(** C5: [startMic] changes nothing when the role is not speaker, and nothing
    when a stream is already held; [stopMic] never throws, stops every track
    of the held stream and releases it; so [stopMic] followed by [startMic]
    under the listener role leaves no local stream. *)
Theorem mic_contract :
  (∀ f env ctx granted w,
     e_myRole env ≠ speaker → startMic f env ctx granted w = (w, Ok tt))
  ∧ (∀ f env ctx granted w s,
       w_localStream w = Some s → startMic f env ctx granted w = (w, Ok tt))
  ∧ (∀ w,
       result stopMic w = Ok tt
       ∧ w_localStream (exec stopMic w) = None
       ∧ ∀ s t, w_localStream w = Some s → t ∈ ms_tracks s →
                t ∈ w_stopped (exec stopMic w))
  ∧ (∀ f env ctx granted w,
       e_myRole env = listener →
       w_localStream (exec (stopMic ;; startMic f env ctx granted) w) = None).
Proof.
  assert (∀ f env ctx granted w,
    e_myRole env ≠ speaker → startMic f env ctx granted w = (w, Ok tt)) as Hrole.
  { intros f env ctx granted w Hne.
    unfold startMic, startMic_sync.
    by rewrite (bool_decide_eq_false_2 _ Hne). }
  split; [exact Hrole|]. split; [|split].
  - intros f env ctx granted w s Hs.
    unfold startMic, startMic_sync.
    destruct (bool_decide (e_myRole env = speaker)); [|done].
    unfold bind, gets. simpl. by rewrite Hs.
  - intros w. unfold result, exec. rewrite stopMic_run. simpl.
    split; [done|]. split; [done|].
    intros s t Hs Ht. rewrite Hs. simpl.
    apply elem_of_union_l, elem_of_list_to_set, Ht.
  - intros f env ctx granted w Hl. unfold exec.
    erewrite bind_run by apply stopMic_run.
    rewrite Hrole; [done|]. by rewrite Hl.
Qed.

Lemma mic_contract_witness :
  startMic no_faults alice browser (Some mic) init = (init, Ok tt)
  ∧ startMic no_faults alice_speaking browser (Some mic) in_call = (in_call, Ok tt)
  ∧ w_localStream (exec (stopMic ;; startMic no_faults alice browser (Some mic)) in_call)
    = None.
Proof.
  destruct mic_contract as (H1 & H2 & _ & H4).
  split; [|split].
  - by apply H1.
  - by apply (H2 _ _ _ _ _ mic).
  - by apply H4.
Defined.

(** ** The active flag *)










(** ** Joining *)

(** C6 as worded fails: the owner joins and toggles nothing, yet the role is
    speaker and the log holds a true-write. *)
Lemma owner_starts_listener_counterexample : ¬ joins_as_listener owner_joining.
Proof. intros H. destruct (H eq_refl) as [Hrole _]. discriminate Hrole. Qed.

(** C6, amended: the component mounts with the listener role; when the
    subscription is acknowledged and the presence state has no entry for the
    local id (an id that names no member of [Object.prototype]), the callback
    announces speaker for the owner and requests the active flag true at
    once, unless the idempotency flag is already up; for anyone else it
    announces listener and requests nothing. *)
Theorem owner_joins_as_speaker (env : Env) (me : jsstring) (channel : nat)
    (state : PresenceState) (w : World) :
  e_profileId env = Some me →
  truthy_str me = true →
  truthy_str (e_postId env) = true →
  me ∉ state.*1 →
  inherited me = false →
  let w' := exec (on_subscribed env channel true state) w in
  w_myRole init = listener
  ∧ w_myRole w' = (if isOwner env then speaker else listener)
  ∧ w_channels w'
    = alter (chan_add_track (if isOwner env then speaker else listener)) channel
            (w_channels w)
  ∧ w_posts w'
    = w_posts w ++
      (if isOwner env && negb (w_madeActiveOnce w)
       then [{| upd_active := true; upd_post := e_postId env;
                upd_owner := e_postOwnerId env |}]
       else [])
  ∧ w_madeActiveOnce w' = (isOwner env || w_madeActiveOnce w).
Proof.
  intros Hme Hp Hpost Hnew Hown. unfold exec, on_subscribed, on_subscribed_sync.
  rewrite Hme, Hp, Hpost. simpl.
  rewrite (bool_decide_eq_false_2 _ Hnew), Hown. simpl.
  unfold on_subscribed_resume.
  cbv beta iota zeta delta
    [bind gets modify channel_track when ret setRoomActive try_catch]; simpl.
  destruct (isOwner env), (w_madeActiveOnce w) eqn:Hmade; simpl;
    rewrite ?app_nil_r, ?Hmade; repeat split.
Qed.

Lemma owner_joins_as_speaker_witness :
  let w' := exec (on_subscribed alice 0 true []) (exec (signaling_effect alice) init) in
  w_myRole w' = speaker
  ∧ w_posts w' = [{| upd_active := true; upd_post := str "post-1";
                     upd_owner := Some (str "alice") |}]
  ∧ w_myRole (exec (on_subscribed bob 0 true []) (exec (signaling_effect bob) init))
    = listener.
Proof.
  destruct (owner_joins_as_speaker alice (str "alice") 0 []
              (exec (signaling_effect alice) init) eq_refl eq_refl eq_refl
              (not_elem_of_nil _) eq_refl) as (_ & Hrole & _ & Hposts & _).
  destruct (owner_joins_as_speaker bob (str "bob") 0 []
              (exec (signaling_effect bob) init) eq_refl eq_refl eq_refl
              (not_elem_of_nil _) eq_refl) as (_ & Hbob & _).
  split; [exact Hrole|]. split; [exact Hposts|exact Hbob].
Defined.

(** ** Role toggles *)

(** C7 as worded fails: the room has been activated once; bob, who does not
    own the post, calls [becomeSpeaker] and stays a listener. *)
Lemma toggle_ungated_counterexample :
  ¬ toggle_ungated_once_active bob (run toggling init).
Proof. intros H. specialize (H eq_refl). discriminate H. Qed.

(** C7, amended: [becomeSpeaker] checks ownership on every call, before and
    after the first activation: for a non-owner it changes nothing, for the
    owner it sets the speaker role.  [becomeListener] checks nothing before it
    sets the listener role, and requests the active flag false only for the
    owner. *)
Theorem becomeSpeaker_owner_only (env : Env) (w : World) :
  (isOwner env = false → becomeSpeaker env w = (w, Ok tt))
  ∧ (isOwner env = true → w_myRole (exec (becomeSpeaker env) w) = speaker)
  ∧ w_myRole (exec (becomeListener env) w) = listener
  ∧ w_posts (exec (becomeListener env) w)
    = w_posts w ++
      (if isOwner env
       then [{| upd_active := false; upd_post := e_postId env;
                upd_owner := e_postOwnerId env |}]
       else []).
Proof.
  unfold exec, becomeSpeaker, becomeSpeaker_sync, becomeSpeaker_resume,
    becomeListener, becomeListener_sync, becomeListener_resume.
  destruct (isOwner env);
    cbv beta iota zeta delta
      [negb bind gets modify channelRef_track channel_track when ret
       setRoomActive try_catch]; simpl;
    destruct (w_channelRef w), (w_madeActiveOnce w) eqn:Hmade; simpl;
    rewrite ?app_nil_r, ?Hmade; repeat split; try done.
Qed.

Lemma becomeSpeaker_owner_only_witness :
  becomeSpeaker bob (run toggling init) = (run toggling init, Ok tt)
  ∧ w_myRole (exec (becomeSpeaker alice) (run toggling init)) = speaker.
Proof.
  split.
  - by apply (becomeSpeaker_owner_only bob (run toggling init)).
  - by apply (becomeSpeaker_owner_only alice (run toggling init)).
Defined.

(** ** The pool points into the heap *)

Lemma pool_wf_alter (g : Peer → Peer) (p : nat) :
  (∀ pr, p_remote (g pr) = p_remote pr) →
  preserves pool_wf (modify (upd_heap (alter g p))).
Proof.
  intros Hg w Hwf rid q Hq. destruct (Hwf rid q Hq) as (pr & Hpr & Hrid).
  unfold exec, modify. simpl.
  destruct (decide (p = q)) as [->|Hne].
  - exists (g pr). by rewrite list_lookup_alter_eq, Hpr, Hg.
  - exists pr. by rewrite list_lookup_alter_ne.
Qed.

Lemma pool_wf_attach (f : Faults) (pid : nat) (s : MediaStream) :
  preserves pool_wf (attachLocalTracksToPeer f pid s).
Proof.
  intros w Hwf. unfold exec. rewrite attach_run.
  apply (pool_wf_alter (attached f pid (ms_id s) (ms_tracks s)) pid); [|done].
  intros pr. apply attached_remote.
Qed.

Lemma pool_wf_delete (rid : jsstring) :
  preserves pool_wf (modify (upd_pool (delete rid))).
Proof.
  intros w Hwf r q. unfold exec, modify. simpl.
  intros [_ Hq]%lookup_delete_Some. by apply Hwf.
Qed.

Lemma pool_wf_clear : preserves pool_wf (modify (upd_pool (λ _, ∅))).
Proof. intros w _ r q. unfold exec, modify. simpl. by rewrite lookup_empty. Qed.

Lemma pool_wf_open_link (f : Faults) (env : Env) (i : bool) (rid : jsstring) :
  preserves pool_wf
    (fresh <- createPeer env i rid ;;
     modify (upd_pool <[rid := fresh]>) ;;
     ls <- gets w_localStream ;;
     match ls with
     | Some stream =>
         when (bool_decide (e_myRole env = speaker))
              (attachLocalTracksToPeer f fresh stream)
     | None => ret tt
     end).
Proof.
  intros w Hwf. unfold exec. rewrite open_link_run. simpl.
  intros r q. simpl. rewrite lookup_insert.
  case_decide as Hr.
  - intros [= <-]. subst r. eexists. split.
    + apply list_lookup_middle. done.
    + by destruct (linked_fields f env (w_localStream w) (length (w_heap w))
                                 (new_peer env i rid)) as (-> & _).
  - intros Hq. destruct (Hwf r q Hq) as (pr & Hpr & Hrid).
    exists pr. split; [|done]. by apply lookup_app_l_Some.
Qed.

Ltac pool_step :=
  first [ apply pool_wf_open_link
        | apply pool_wf_attach
        | apply pool_wf_delete
        | apply pool_wf_clear
        | apply pool_wf_alter; intros ?; reflexivity
        | preserves_step ].

Lemma handle_pool_wf (f : Faults) (e : Event) : preserves pool_wf (handle f e).
Proof.
  destruct e; simpl;
    unfold on_hmr_status, signaling_effect, signaling_cleanup, on_presence_sync,
      on_signal, on_subscribed_sync, peer_plan_effect, plan_link, peer_plan_cleanup,
      peer_listener, on_iceconnectionstatechange, on_connectionstatechange,
      on_peer_signal, on_peer_stream, fire_timer, resume, becomeSpeaker_sync,
      becomeSpeaker_resume, on_subscribed_resume,
      becomeListener_sync, becomeListener_resume, endRoom_sync, endRoom_resume,
      with_session, attemptRebuild, mic_debounced_sync, startMic_sync,
      startMic_resume, stopMic, attachRemote,
      peer_destroy, peer_signal, channel_unsubscribe,
      channelRef_track, channel_track, track_stop, setTimeout, clearTimeout,
      suspend, setRoomActive;
    cbv zeta; repeat pool_step.
Qed.

Lemma run_pool_wf (tr : list (Faults * Event)) : pool_wf (run tr init).
Proof.
  assert (∀ w, pool_wf w → pool_wf (run tr w)) as H.
  { induction tr as [|[f e] tr IH]; intros w Hw; [done|].
    simpl. apply IH. by apply handle_pool_wf. }
  apply H. intros rid p. unfold init. simpl. by rewrite lookup_empty.
Qed.

(** ** Rebuilding a failed link *)

Lemma attemptRebuild_run (f : Faults) (env : Env) (me rid : jsstring)
    (old : nat) (w : World) :
  e_profileId env = Some me →
  truthy_str me = true →
  w_pool w !! rid = Some old →
  attemptRebuild f env rid w =
    let fresh := length (w_heap w) in
    let replacement :=
      linked f env (w_localStream w) fresh (new_peer env (isInitiator me rid) rid) in
    (upd_pool (λ m, <[rid := fresh]> (delete rid m))
       (upd_remoteStreams (delete rid)
          (upd_heap (λ h, (if f_destroy f old then h
                           else alter peer_mark_destroyed old h) ++ [replacement]) w)),
     Ok tt).
Proof.
  intros Hme Hp Hold. unfold attemptRebuild.
  unfold bind at 1. unfold gets at 1. rewrite Hold, Hme, Hp.
  unfold bind at 1. unfold try_catch, peer_destroy.
  unfold bind at 1. unfold modify at 1.
  unfold bind at 1. unfold modify at 1.
  rewrite open_link_run.
  destruct (f_destroy f old); simpl; [done|].
  by rewrite length_alter.
Qed.

(** ** At most one live link per remote id *)

Lemma live_alter (g : Peer → Peer) (p : nat) :
  (∀ pr, p_remote (g pr) = p_remote pr) →
  (∀ pr, p_destroyed pr = true → p_destroyed (g pr) = true) →
  preserves live_in_pool (modify (upd_heap (alter g p))).
Proof.
  intros Hr Hd w Hlive q pr. unfold exec, modify. simpl.
  rewrite list_lookup_alter. case_decide as Hq.
  - subst q. destruct (w_heap w !! p) as [pr0|] eqn:Hp; [|done].
    simpl. intros [= <-] Hlv. rewrite Hr. apply Hlive; [done|].
    destruct (p_destroyed pr0) eqn:Hd0; [|done].
    by rewrite (Hd pr0 Hd0) in Hlv.
  - apply Hlive.
Qed.

Lemma live_attach (f : Faults) (pid : nat) (s : MediaStream) :
  preserves live_in_pool (attachLocalTracksToPeer f pid s).
Proof.
  intros w Hlive. unfold exec. rewrite attach_run.
  apply (live_alter (attached f pid (ms_id s) (ms_tracks s)) pid); [| |done].
  - intros pr. apply attached_remote.
  - intros pr Hd.
    by destruct (attached_remote f pid (ms_id s) (ms_tracks s) pr) as (_ & _ & -> & _).
Qed.

Lemma live_push (rid : jsstring) (new : Peer) (w : World) :
  p_remote new = rid →
  w_pool w !! rid = None →
  live_in_pool w →
  live_in_pool
    (upd_pool <[rid := length (w_heap w)]> (upd_heap (λ h, h ++ [new]) w)).
Proof.
  intros Hr Hnone Hlive q pr. simpl.
  intros Hq Hlv. apply lookup_app_Some in Hq as [Hq|[Hge Hq]].
  - specialize (Hlive q pr Hq Hlv).
    rewrite lookup_insert_ne; [done|]. intros Heq. congruence.
  - apply list_lookup_singleton_Some in Hq as [Hq <-].
    rewrite Hr. rewrite lookup_insert_eq. f_equal. lia.
Qed.

Lemma live_open_link (f : Faults) (env : Env) (i : bool) (rid : jsstring) (w : World) :
  w_pool w !! rid = None →
  live_in_pool w →
  live_in_pool
    (upd_pool <[rid := length (w_heap w)]>
       (upd_heap (λ h, h ++ [linked f env (w_localStream w) (length (w_heap w))
                                    (new_peer env i rid)]) w)).
Proof.
  apply live_push.
  by destruct (linked_fields f env (w_localStream w) (length (w_heap w))
                 (new_peer env i rid)) as (-> & _).
Qed.

Lemma live_plan_link (f : Faults) (env : Env) (me : jsstring) (c : PresenceParticipant) :
  preserves live_in_pool (plan_link f env me c).
Proof.
  intros w Hlive. unfold exec, plan_link. cbv zeta.
  unfold bind at 1. unfold gets at 1.
  destruct (w_pool w !! ap_profile_id c) as [q|] eqn:Hc; [done|].
  destruct (inherited (ap_profile_id c)); [done|].
  rewrite open_link_run. by apply live_open_link.
Qed.

Lemma live_on_signal (f : Faults) (env : Env) (from : jsstring) (data : nat) :
  preserves live_in_pool (on_signal f env from data).
Proof.
  intros w Hlive. unfold exec.
  destruct (e_profileId env) as [me|] eqn:Hme;
    [|by unfold on_signal, with_session; rewrite Hme].
  destruct (truthy_str me && truthy_str (e_postId env)) eqn:Hg;
    [|by unfold on_signal, with_session; rewrite Hme, Hg].
  apply andb_true_iff in Hg as [Hp Hpost].
  rewrite (on_signal_run f env me from data w Hme Hp Hpost).
  destruct (bool_decide (from = me)); [done|].
  destruct (w_pool w !! from) as [peer|] eqn:Hknown.
  - destruct (signal_throws f peer w); [done|].
    by apply (live_alter (peer_add_signal data) peer).
  - destruct (inherited from); [done|]. cbv zeta.
    destruct (linked_fields f env (w_localStream w) (length (w_heap w))
                (new_peer env false from)) as (Hr & _).
    destruct (f_signal f (length (w_heap w))); simpl;
      (apply live_push; [|done..]); simpl; exact Hr.
Qed.

Lemma live_attemptRebuild (f : Faults) (env : Env) (rid : jsstring) :
  calm f → preserves live_in_pool (attemptRebuild f env rid).
Proof.
  intros Hcalm w Hlive. unfold exec, attemptRebuild.
  unfold bind at 1. unfold gets at 1.
  destruct (w_pool w !! rid) as [old|] eqn:Hold; [|done].
  unfold bind at 1. unfold try_catch, peer_destroy. rewrite Hcalm.
  unfold bind at 1. unfold modify at 1 2.
  unfold bind at 1. unfold modify at 1.
  set (w1 := upd_remoteStreams _ _).
  assert (live_in_pool w1 ∧ w_pool w1 !! rid = None) as [Hlive1 Hnone].
  { subst w1. split; [|apply lookup_delete_eq].
    intros q pr. simpl. rewrite list_lookup_alter. case_decide as Hq.
    - subst q. destruct (w_heap w !! old); [|done]. simpl. by intros [= <-].
    - intros Hpr Hlv. specialize (Hlive q pr Hpr Hlv).
      rewrite lookup_delete_ne; [done|]. intros Heq. congruence. }
  destruct (e_profileId env) as [me|]; [|done].
  destruct (truthy_str me); [|done].
  rewrite open_link_run. by apply live_open_link.
Qed.

Lemma live_cleanup (f : Faults) (env : Env) (channel : nat) :
  calm f → preserves live_in_pool (signaling_cleanup f env channel).
Proof.
  intros Hcalm w Hlive. unfold exec. rewrite signaling_cleanup_run.
  destruct (e_isDev env && w_hmrDisposing w); [done|].
  intros q pr. simpl. rewrite destroyed_all_lookup, Hcalm, andb_true_r.
  case_bool_decide as Hq.
  - destruct (w_heap w !! q); [|done]. simpl. by intros [= <-].
  - intros Hpr Hlv. exfalso. apply Hq.
    apply list_elem_of_fmap. exists (p_remote pr, q). split; [done|].
    apply elem_of_map_to_list. by apply Hlive.
Qed.

Ltac live_step :=
  first [ apply live_on_signal
        | apply live_attemptRebuild; assumption
        | apply live_cleanup; assumption
        | apply live_plan_link
        | apply live_attach
        | preserves_step ].

Lemma handle_live (f : Faults) (e : Event) :
  calm f → preserves live_in_pool (handle f e).
Proof.
  intros Hcalm.
  destruct e; simpl;
    unfold on_hmr_status, signaling_effect, on_presence_sync,
      on_subscribed_sync, peer_plan_effect, peer_plan_cleanup,
      peer_listener, on_iceconnectionstatechange, on_connectionstatechange,
      on_peer_signal, on_peer_stream, fire_timer, resume, becomeSpeaker_sync,
      becomeSpeaker_resume, on_subscribed_resume,
      becomeListener_sync, becomeListener_resume, endRoom_sync, endRoom_resume,
      with_session, mic_debounced_sync, startMic_sync,
      startMic_resume, stopMic, attachRemote,
      channelRef_track, channel_track, track_stop, setTimeout, clearTimeout,
      suspend, setRoomActive;
    repeat live_step.
Qed.

Lemma run_live (tr : list (Faults * Event)) :
  Forall (λ fe, calm fe.1) tr → live_in_pool (run tr init).
Proof.
  assert (∀ w, Forall (λ fe, calm fe.1) tr → live_in_pool w → live_in_pool (run tr w))
    as H.
  { induction tr as [|[f e] tr IH]; intros w Hcalm Hw; [done|].
    apply Forall_cons in Hcalm as [Hf Hcalm].
    simpl. apply IH; [done|]. by apply handle_live. }
  intros Hcalm. apply H; [done|]. intros p pr. unfold init. simpl.
  by rewrite lookup_nil.
Qed.

(** ** Closures of listeners and timers *)

Lemma truthy_guard (env : Env) (me : jsstring) (b : bool) :
  e_profileId env = Some me → truthy_str me && b = true →
  truthy (e_profileId env) = true.
Proof. intros -> H. by destruct me. Qed.

Lemma closures_alter (g : Peer → Peer) (p : nat) :
  (∀ pr, p_env (g pr) = p_env pr) →
  preserves closures_ok (modify (upd_heap (alter g p))).
Proof.
  intros Hg w [Hheap Htimers]. split; [|exact Htimers].
  intros q pr. unfold exec, modify. simpl.
  rewrite list_lookup_alter. case_decide as Hq; [|apply Hheap].
  subst q. destruct (w_heap w !! p) as [pr0|] eqn:Hp; [|done].
  simpl. intros [= <-]. rewrite Hg. by apply (Hheap p).
Qed.

Lemma closures_attach (f : Faults) (pid : nat) (s : MediaStream) :
  preserves closures_ok (attachLocalTracksToPeer f pid s).
Proof.
  intros w H. unfold exec. rewrite attach_run.
  apply (closures_alter (attached f pid (ms_id s) (ms_tracks s)) pid); [|done].
  intros pr. apply attached_remote.
Qed.

Lemma closures_createPeer (env : Env) (i : bool) (rid : jsstring) :
  truthy (e_profileId env) = true →
  preserves closures_ok (createPeer env i rid).
Proof.
  intros Henv w [Hheap Htimers]. split; [|exact Htimers].
  intros q pr. unfold exec, createPeer, bind, gets, modify, ret. simpl.
  intros [Hq|[_ Hq]]%lookup_app_Some; [by apply (Hheap q)|].
  by apply list_lookup_singleton_Some in Hq as [_ <-].
Qed.

Lemma closures_clearTimeout (h : nat) :
  preserves closures_ok (modify (upd_timers (delete h))).
Proof.
  intros w [Hheap Htimers]. split; [exact Hheap|].
  intros h' t env rid. unfold exec, modify. simpl.
  intros [_ Ht]%lookup_delete_Some. by apply (Htimers h' t).
Qed.

Lemma closures_mic_timer (env : Env) (h : nat) (d : N) :
  preserves closures_ok
    (modify (upd_timers <[h := {| tm_delay := d; tm_action := TMic env |}]>)).
Proof.
  intros w [Hheap Htimers]. split; [exact Hheap|].
  intros h' t env' rid. unfold exec, modify. simpl.
  rewrite lookup_insert. case_decide; [by intros [= <-]|apply (Htimers h' t)].
Qed.

Lemma closures_state_listener (peer : nat) (st : PcState) :
  preserves closures_ok
    (peer_listener peer (λ env remoteId, on_iceconnectionstatechange env remoteId st))
  ∧ preserves closures_ok
      (peer_listener peer (λ env remoteId, on_connectionstatechange env remoteId st)).
Proof.
  split; intros w [Hheap Htimers];
    unfold exec, peer_listener, on_iceconnectionstatechange, on_connectionstatechange;
    unfold bind at 1; unfold gets at 1;
    (destruct (w_heap w !! peer) as [pr|] eqn:Hpr; [|done]);
    (destruct (failed_or_disconnected st); [|done]);
    cbv beta iota zeta delta [when bind setTimeout gets modify ret]; simpl;
    (split; [exact Hheap|]);
    intros h t env rid; simpl; rewrite lookup_insert;
    (case_decide; [|apply (Htimers h t)]);
    intros [= <-]; simpl; intros [= <- <-]; by apply (Hheap peer).
Qed.

Ltac closures_step :=
  first [ apply closures_attach
        | apply closures_createPeer; eapply truthy_guard; eassumption
        | apply closures_createPeer; eapply (truthy_guard _ _ true);
            [eassumption|rewrite andb_true_r; eassumption]
        | apply closures_clearTimeout
        | apply closures_mic_timer
        | apply closures_alter; intros ?; reflexivity
        | apply closures_state_listener
        | lazymatch goal with
          | |- preserves _ (match ?x with _ => _ end) => destruct x eqn:?
          end
        | preserves_step ].

Lemma handle_closures (f : Faults) (e : Event) : preserves closures_ok (handle f e).
Proof.
  destruct e; simpl;
    unfold on_hmr_status, signaling_effect, signaling_cleanup, on_presence_sync,
      on_signal, on_subscribed_sync, peer_plan_effect, plan_link, peer_plan_cleanup,
      on_peer_signal, on_peer_stream, fire_timer, resume, becomeSpeaker_sync,
      becomeSpeaker_resume, on_subscribed_resume,
      becomeListener_sync, becomeListener_resume, endRoom_sync, endRoom_resume,
      with_session, attemptRebuild, mic_debounced_sync, startMic_sync,
      startMic_resume, stopMic, attachRemote,
      peer_destroy, peer_signal, channel_unsubscribe,
      channelRef_track, channel_track, track_stop, clearTimeout,
      suspend, setRoomActive;
    try unfold setTimeout; try unfold peer_listener at 1;
    cbv zeta; repeat closures_step.
Qed.

Lemma run_closures (tr : list (Faults * Event)) : closures_ok (run tr init).
Proof.
  assert (∀ w, closures_ok w → closures_ok (run tr w)) as H.
  { induction tr as [|[f e] tr IH]; intros w Hw; [done|].
    simpl. apply IH. by apply handle_closures. }
  apply H. split.
  - intros p pr. unfold init. simpl. by rewrite lookup_nil.
  - intros h t env rid. unfold init. simpl. by rewrite lookup_empty.
Qed.

(** C4: when a peer's ICE or connection state turns [failed] or
    [disconnected], the listener does one thing: it schedules
    [attemptRebuild] for the peer's remote id 1500 ms later.  When such a
    timer fires and the pool still holds a link for the id, [destroy] is
    called on that link (a throw is swallowed), the remote stream of the id is
    dropped from the visible state, and the pool entry of the id is pointed at
    one newly created live peer whose initiator flag is [isInitiator] of the
    local and the remote id.  Where no [destroy] call has thrown, that peer is
    the only live one for the id in the whole heap. *)
Theorem rebuild_after_failure (tr : list (Faults * Event)) (f : Faults) :
  let w := run tr init in
  (∀ old pr st,
     w_heap w !! old = Some pr →
     failed_or_disconnected st = true →
     let scheduled :=
       set_next_timer (S (w_next_timer w))
         (upd_timers <[w_next_timer w :=
                         {| tm_delay := 1500;
                            tm_action := TRebuild (p_env pr) (p_remote pr) |}]> w) in
     handle f (EIceState old st) w = (scheduled, Ok tt)
     ∧ handle f (EConnState old st) w = (scheduled, Ok tt))
  ∧ (∀ h env rid old ctx,
       w_timers w !! h = Some {| tm_delay := 1500; tm_action := TRebuild env rid |} →
       w_pool w !! rid = Some old →
       let w' := exec (handle f (ETimer h ctx)) w in
       let fresh := length (w_heap w) in
       ∃ me pr_old pr_new,
         e_profileId env = Some me
         ∧ w_timers w' = delete h (w_timers w)
         ∧ w_heap w !! old = Some pr_old
         ∧ old < fresh
         ∧ w_heap w' !! old
           = Some (if f_destroy f old then pr_old else peer_mark_destroyed pr_old)
         ∧ w_remoteStreams w' = delete rid (w_remoteStreams w)
         ∧ w_pool w' = <[rid := fresh]> (w_pool w)
         ∧ length (w_heap w') = S fresh
         ∧ w_heap w' !! fresh = Some pr_new
         ∧ p_destroyed pr_new = false
         ∧ p_remote pr_new = rid
         ∧ p_initiator pr_new = isInitiator me rid
         ∧ (Forall (λ fe, calm fe.1) tr → calm f →
            ∀ p pr, w_heap w' !! p = Some pr → p_remote pr = rid →
                    p_destroyed pr = false → p = fresh)).
Proof.
  intros w.
  assert (pool_wf w) as Hwf by apply run_pool_wf.
  assert (closures_ok w) as [_ Hclos] by apply run_closures.
  assert (Forall (λ fe, calm fe.1) tr → live_in_pool w) as Hlive by apply run_live.
  clearbody w. split.
  - intros old pr st Hpr Hst. simpl.
    unfold peer_listener, on_iceconnectionstatechange, on_connectionstatechange.
    split; unfold bind at 1; unfold gets at 1; rewrite Hpr, Hst;
      by cbv beta iota zeta delta [when bind setTimeout gets modify ret].
  - intros h env rid old ctx Hh Hold.
    pose proof (Hclos h _ env rid Hh eq_refl) as Henv.
    destruct (e_profileId env) as [me|] eqn:Hme; [|done].
    assert (truthy_str me = true) as Hp by (by destruct me).
    destruct (Hwf rid old Hold) as (pr_old & Hpr & Hrid).
    pose proof (lookup_lt_Some _ _ _ Hpr) as Hlt.
    assert (handle f (ETimer h ctx) w
            = attemptRebuild f env rid (upd_timers (delete h) w)) as Hfire.
    { simpl. unfold fire_timer.
      unfold bind at 1. unfold gets at 1. rewrite Hh.
      unfold bind at 1. unfold modify at 1. done. }
    unfold exec. rewrite Hfire.
    rewrite (attemptRebuild_run f env me rid old (upd_timers (delete h) w) Hme Hp Hold).
    simpl.
    destruct (linked_fields f env (w_localStream w) (length (w_heap w))
                (new_peer env (isInitiator me rid) rid)) as (Hr & Hi & Hd & _).
    exists me, pr_old. eexists.
    split; [done|]. split; [done|]. split; [done|]. split; [done|]. split.
    { destruct (f_destroy f old).
      - by apply lookup_app_l_Some.
      - apply lookup_app_l_Some. by rewrite list_lookup_alter_eq, Hpr. }
    split; [done|].
    split; [apply insert_delete_eq|].
    split.
    { rewrite length_app. destruct (f_destroy f old); rewrite ?length_alter; simpl; lia. }
    split.
    { destruct (f_destroy f old).
      - apply list_lookup_middle. done.
      - apply list_lookup_middle. by rewrite length_alter. }
    rewrite Hr, Hi, Hd. split; [done|]. split; [done|]. split; [done|].
    intros Htr Hf p pr Hpr' Hrem Hlv.
    pose proof (live_attemptRebuild f env rid Hf (upd_timers (delete h) w) (Hlive Htr))
      as Hlive'.
    unfold exec in Hlive'.
    rewrite (attemptRebuild_run f env me rid old (upd_timers (delete h) w) Hme Hp Hold)
      in Hlive'.
    specialize (Hlive' p pr Hpr' Hlv). rewrite Hrem in Hlive'. simpl in Hlive'.
    rewrite lookup_insert_eq in Hlive'. congruence.
Qed.

Lemma rebuild_after_failure_witness :
  let w' := exec (handle no_faults (ETimer 1 browser)) (run bob_failed init) in
  w_timers (run bob_failed init) !! 1
    = Some {| tm_delay := 1500; tm_action := TRebuild alice_speaking (str "bob") |}
  ∧ w_pool (run bob_failed init) !! str "bob" = Some 0
  ∧ w_remoteStreams (run bob_failed init) !! str "bob"
    = Some {| ms_id := 5; ms_tracks := [9] |}
  ∧ w_remoteStreams w' !! str "bob" = None
  ∧ w_pool w' !! str "bob" = Some 2
  ∧ length (w_heap w') = 3
  ∧ (∃ pr, w_heap w' !! 0 = Some pr ∧ p_destroyed pr = true)
  ∧ (∃ pr, w_heap w' !! 2 = Some pr ∧ p_destroyed pr = false ∧ p_initiator pr = true)
  ∧ (∀ p pr, w_heap w' !! p = Some pr → p_remote pr = str "bob" →
             p_destroyed pr = false → p = 2).
Proof.
  destruct (rebuild_after_failure calling no_faults) as [Hsched _].
  destruct (Hsched 0 _ st_failed eq_refl eq_refl) as [Hice _].
  destruct (rebuild_after_failure bob_failed no_faults) as [_ Hfire].
  destruct (Hfire 1 alice_speaking (str "bob") 0 browser eq_refl eq_refl)
    as (me & pr_old & pr_new & Hme & _ & Hpr & _ & Hold & Hrs & Hpool & Hlen
        & Hnew & Hd & _ & Hi & Huniq).
  injection Hme as <-.
  split; [reflexivity|]. split; [reflexivity|]. split; [reflexivity|].
  split; [rewrite Hrs; apply lookup_delete_eq|].
  split; [rewrite Hpool; apply lookup_insert_eq|].
  split; [exact Hlen|]. split; [|split].
  - exists (peer_mark_destroyed pr_old). split; [exact Hold|reflexivity].
  - exists pr_new. split; [exact Hnew|]. split; [exact Hd|]. exact Hi.
  - assert (calm no_faults) as Hcalm by (intros ?; reflexivity).
    assert (Forall (λ fe, calm fe.1) bob_failed) as Htr.
    { unfold bob_failed, calling. simpl.
      repeat (apply Forall_cons; split; [exact Hcalm|]). constructor. }
    exact (Huniq Htr Hcalm).
Defined.

(** ** Which links the peer plan opens *)

Lemma plan_link_run (f : Faults) (env : Env) (me : jsstring)
    (c : PresenceParticipant) (w : World) :
  ∃ w1, plan_link f env me c w = (w1, Ok tt)
        ∧ w_pool w1 = match w_pool w !! ap_profile_id c with
                      | Some _ => w_pool w
                      | None =>
                          if inherited (ap_profile_id c) then w_pool w
                          else <[ap_profile_id c := length (w_heap w)]> (w_pool w)
                      end.
Proof.
  unfold plan_link. cbv zeta. unfold bind at 1. unfold gets at 1.
  destruct (w_pool w !! ap_profile_id c) as [q|] eqn:Hc.
  - by exists w.
  - destruct (inherited (ap_profile_id c)); [by exists w|].
    rewrite open_link_run. eexists. split; [done|]. done.
Qed.

Lemma plan_loop_pool (f : Faults) (env : Env) (me : jsstring)
    (cs : list PresenceParticipant) (w : World) (rid : jsstring) :
  (∀ old, w_pool w !! rid = Some old →
          w_pool (for_each cs (plan_link f env me) w).1 !! rid = Some old)
  ∧ (is_Some (w_pool (for_each cs (plan_link f env me) w).1 !! rid)
     ↔ is_Some (w_pool w !! rid)
       ∨ (inherited rid = false ∧ rid ∈ ap_profile_id <$> cs)).
Proof.
  induction cs as [|c cs IH] in w |- *.
  - simpl. split; [done|]. rewrite elem_of_nil.
    split; [by left|by intros [?|[_ []]]].
  - simpl for_each.
    destruct (plan_link_run f env me c w) as (w1 & Hrun & Hpool).
    rewrite !(bind_run _ _ w w1 tt Hrun).
    destruct (IH w1) as [IH1 IH2]. rewrite IH2, fmap_cons, elem_of_cons.
    rewrite Hpool in IH1 |- *. clear IH2 Hpool Hrun.
    destruct (w_pool w !! ap_profile_id c) as [q|] eqn:Hc.
    + split; [exact IH1|]. split; [intros [?|[? ?]]; eauto|].
      intros [?|[? [->|?]]]; eauto.
    + destruct (inherited (ap_profile_id c)) eqn:Hown.
      * split; [exact IH1|]. split; [intros [?|[? ?]]; eauto|].
        intros [?|[Hrid [->|?]]]; eauto. congruence.
      * split.
        -- intros old Hold. apply IH1.
           rewrite lookup_insert_ne; [done|]. intros Heq. rewrite Heq in Hc. congruence.
        -- rewrite lookup_insert. case_decide as Hr.
           ++ subst rid. split; eauto.
           ++ split; [intros [?|[? ?]]; eauto|]. intros [?|[? [?|?]]]; eauto.
              congruence.
Qed.




(** * Further properties of the component *)

(** ** The election is an order *)

Lemma str_lt_trans (x y z : jsstring) :
  str_lt x y = true → str_lt y z = true → str_lt x z = true.
Proof.
  revert y z. induction x as [|a x IH]; intros [|b y] [|c z]; simpl; try done.
  destruct (N.eqb_spec a b) as [->|Hab].
  - destruct (N.eqb_spec b c) as [->|Hbc]; [apply IH|done].
  - intros Hlt%N.ltb_lt.
    destruct (N.eqb_spec b c) as [->|Hbc].
    + intros _. destruct (N.eqb_spec a c) as [->|_]; [done|]. by apply N.ltb_lt.
    + intros Hlt'%N.ltb_lt.
      destruct (N.eqb_spec a c) as [->|_]; [lia|]. apply N.ltb_lt. lia.
Qed.

(** X1: nobody initiates towards themselves, and the election has no cycles:
    if A initiates towards B and B towards C, then A initiates towards C. *)
Theorem isInitiator_strict_order (A B C : jsstring) :
  isInitiator A A = false
  ∧ (isInitiator A B = true → isInitiator B C = true → isInitiator A C = true).
Proof.
  split; [apply str_lt_irrefl|]. unfold isInitiator. apply str_lt_trans.
Qed.

Lemma isInitiator_strict_order_witness :
  isInitiator (str "alice") (str "alice") = false
  ∧ isInitiator (str "alice") (str "carol") = true.
Proof.
  destruct (isInitiator_strict_order (str "alice") (str "bob") (str "carol"))
    as [Hirr Htrans].
  split; [exact Hirr|]. apply Htrans; by vm_compute.
Defined.

(** ** Attaching the local tracks *)

Lemma attached_tracks (f : Faults) (pid sid : nat) (ts : list nat) (p : Peer) :
  p_tracks (attached f pid sid ts p)
  = p_tracks p ++ List.map (λ t, (t, sid)) (filter (λ t, f_addTrack f pid t = false) ts).
Proof.
  unfold attached. induction ts as [|t ts IH] in p |- *; simpl.
  - by rewrite app_nil_r.
  - rewrite filter_cons. destruct (f_addTrack f pid t) eqn:Ht.
    + rewrite decide_False by done. apply IH.
    + rewrite decide_True by done. rewrite IH. simpl. by rewrite <- app_assoc.
Qed.

(** X2: [attachLocalTracksToPeer] never throws; it adds to the one peer, in
    the stream's order, every track whose [addTrack] does not throw (a throw
    on one track does not keep the later ones off), and it touches no other
    peer and nothing else of the session. *)
Theorem attach_skips_throwing_tracks (f : Faults) (pid : nat) (s : MediaStream)
    (w : World) (pr : Peer) :
  w_heap w !! pid = Some pr →
  let w' := exec (attachLocalTracksToPeer f pid s) w in
  result (attachLocalTracksToPeer f pid s) w = Ok tt
  ∧ (∃ pr', w_heap w' !! pid = Some pr'
            ∧ p_tracks pr' = p_tracks pr ++ accepted_tracks f pid s
            ∧ p_destroyed pr' = p_destroyed pr
            ∧ p_signals pr' = p_signals pr)
  ∧ (∀ q, q ≠ pid → w_heap w' !! q = w_heap w !! q)
  ∧ w' = upd_heap (λ _, w_heap w') w.
Proof.
  intros Hpr. unfold exec, result. rewrite attach_run. simpl.
  split; [done|]. split; [|split; [|done]].
  - eexists. rewrite list_lookup_alter_eq, Hpr. split; [done|].
    split; [apply attached_tracks|].
    by destruct (attached_remote f pid (ms_id s) (ms_tracks s) pr)
      as (_ & _ & -> & _ & ->).
  - intros q Hq. by apply list_lookup_alter_ne.
Qed.

Lemma attach_skips_throwing_tracks_witness :
  ∃ pr', w_heap (exec (attachLocalTracksToPeer picky 0 mic)
                      (exec (on_signal no_faults carol (str "bob") 3) init)) !! 0
         = Some pr'
         ∧ p_tracks pr' = [(1, 0)].
Proof.
  destruct (attach_skips_throwing_tracks picky 0 mic
              (exec (on_signal no_faults carol (str "bob") 3) init) _ eq_refl)
    as (_ & (pr' & Hpr' & Htracks & _) & _).
  exists pr'. split; [exact Hpr'|]. rewrite Htracks. by vm_compute.
Defined.

(** ** Acquiring the microphone *)

Lemma startMic_run (f : Faults) (env : Env) (ctx : MicCtx)
    (granted : option MediaStream) (w : World) :
  startMic f env ctx granted w =
    if bool_decide (e_myRole env = speaker)
       && bool_decide (w_localStream w = None)
       && mc_isSecureContext ctx
       && (mc_hasStd ctx || mc_hasWebkit ctx)
    then startMic_resume f granted w
    else (w, Ok tt).
Proof.
  unfold startMic, startMic_sync.
  destruct (bool_decide (e_myRole env = speaker)); [|done]. simpl.
  unfold bind at 1. unfold bind at 1. unfold gets at 1.
  destruct (w_localStream w); [done|].
  rewrite bool_decide_eq_true_2 by done. simpl.
  destruct (mc_isSecureContext ctx); [|done]. simpl.
  by destruct (mc_hasStd ctx || mc_hasWebkit ctx).
Qed.

(** X3: [startMic] leaves the whole session as it was, role included, when
    the page is not in a secure context, when the browser has neither
    [mediaDevices.getUserMedia] nor [webkitGetUserMedia], and when the request
    for the microphone is rejected. *)
Theorem startMic_fails_closed (f : Faults) (env : Env) (ctx : MicCtx)
    (granted : option MediaStream) (w : World) :
  (mc_isSecureContext ctx = false → startMic f env ctx granted w = (w, Ok tt))
  ∧ (mc_hasStd ctx = false → mc_hasWebkit ctx = false →
     startMic f env ctx granted w = (w, Ok tt))
  ∧ startMic f env ctx None w = (w, Ok tt).
Proof.
  rewrite !startMic_run. split; [|split].
  - intros ->. by rewrite andb_false_r.
  - intros -> ->. by rewrite andb_false_r.
  - by destruct (_ && _).
Qed.

Lemma startMic_fails_closed_witness :
  startMic no_faults alice_speaking insecure (Some mic) init = (init, Ok tt).
Proof.
  by apply (startMic_fails_closed no_faults alice_speaking insecure (Some mic) init).
Defined.

Lemma attach_loop_run (f : Faults) (s : MediaStream) (ps : list nat) (w : World) :
  for_each ps (λ peer, attachLocalTracksToPeer f peer s) w
  = (upd_heap (λ h, foldl (λ h p, alter (attached f p (ms_id s) (ms_tracks s)) p h) h ps) w,
     Ok tt).
Proof.
  induction ps as [|p ps IH] in w |- *; simpl.
  - unfold ret. f_equal. symmetry. by apply upd_heap_id.
  - unfold bind at 1. rewrite attach_run, IH. by rewrite upd_heap_upd_heap.
Qed.

Lemma attach_loop_lookup (f : Faults) (s : MediaStream) (ps : list nat)
    (h : list Peer) (p : nat) :
  NoDup ps →
  foldl (λ h p, alter (attached f p (ms_id s) (ms_tracks s)) p h) h ps !! p
  = if bool_decide (p ∈ ps)
    then attached f p (ms_id s) (ms_tracks s) <$> h !! p
    else h !! p.
Proof.
  intros Hnd. induction Hnd as [|q ps Hq Hnd IH] in h |- *; simpl; [done|].
  rewrite IH. destruct (decide (p = q)) as [->|Hne].
  - rewrite (bool_decide_eq_false_2 _ Hq).
    rewrite (bool_decide_eq_true_2 (q ∈ q :: ps)) by (apply elem_of_cons; auto).
    apply list_lookup_alter_eq.
  - assert (bool_decide (p ∈ q :: ps) = bool_decide (p ∈ ps)) as ->.
    { apply bool_decide_ext. rewrite elem_of_cons. split; [|by right].
      by intros [?|?]. }
    rewrite list_lookup_alter_ne by done. done.
Qed.

Lemma startMic_resume_granted (f : Faults) (stream : MediaStream) (w : World) :
  startMic_resume f (Some stream) w
  = (upd_heap (λ h, foldl (λ h p, alter (attached f p (ms_id stream) (ms_tracks stream)) p h)
                          h (map_to_list (w_pool w)).*2)
       (set_localStream (Some stream) w),
     Ok tt).
Proof.
  unfold startMic_resume, try_catch. f_equal.
  unfold bind at 1. unfold modify at 1. unfold bind at 1. unfold gets at 1.
  by rewrite attach_loop_run.
Qed.

Lemma pool_values_NoDup (w : World) :
  pool_wf w → NoDup (map_to_list (w_pool w)).*2.
Proof.
  intros Hwf. apply NoDup_fmap_2_strong; [|apply NoDup_map_to_list].
  intros [r1 p1] [r2 p2] H1%elem_of_map_to_list H2%elem_of_map_to_list. simpl.
  intros <-. destruct (Hwf r1 p1 H1) as (pr1 & Hpr1 & <-).
  destruct (Hwf r2 p1 H2) as (pr2 & Hpr2 & <-). congruence.
Qed.

(** X4: in any state the session can reach, [startMic] under the speaker role,
    with no stream held, in a secure context with a microphone API, once the
    stream is granted: stores that one stream, leaves the pool as it is, and
    adds the stream's tracks (those whose [addTrack] does not throw) once to
    every peer of the pool and to no other peer. *)
Theorem startMic_attaches_to_every_link (tr : list (Faults * Event)) (f : Faults)
    (env : Env) (ctx : MicCtx) (stream : MediaStream) :
  let w := run tr init in
  e_myRole env = speaker →
  w_localStream w = None →
  mc_isSecureContext ctx = true →
  mc_hasStd ctx || mc_hasWebkit ctx = true →
  let w' := exec (startMic f env ctx (Some stream)) w in
  result (startMic f env ctx (Some stream)) w = Ok tt
  ∧ w_localStream w' = Some stream
  ∧ w_pool w' = w_pool w
  ∧ length (w_heap w') = length (w_heap w)
  ∧ (∀ rid p, w_pool w !! rid = Some p →
       ∃ pr pr', w_heap w !! p = Some pr ∧ w_heap w' !! p = Some pr'
                 ∧ p_tracks pr' = p_tracks pr ++ accepted_tracks f p stream)
  ∧ (∀ p, (∀ rid, w_pool w !! rid ≠ Some p) → w_heap w' !! p = w_heap w !! p).
Proof.
  intros w Hrole Hnone Hsec Hapi.
  assert (pool_wf w) as Hwf by apply run_pool_wf. clearbody w.
  unfold exec, result. rewrite startMic_run.
  rewrite (bool_decide_eq_true_2 _ Hrole), (bool_decide_eq_true_2 _ Hnone), Hsec, Hapi.
  cbn [andb]. rewrite startMic_resume_granted. simpl.
  assert (∀ p, p ∈ (map_to_list (w_pool w)).*2 ↔ ∃ rid, w_pool w !! rid = Some p)
    as Hvals.
  { intros p. rewrite list_elem_of_fmap. split.
    - intros ([rid q] & -> & Hin%elem_of_map_to_list). by exists rid.
    - intros [rid Hrid]. exists (rid, p). split; [done|].
      by apply elem_of_map_to_list. }
  pose proof (pool_values_NoDup w Hwf) as Hnd.
  split; [done|]. split; [done|]. split; [done|]. split; [|split].
  - generalize (map_to_list (w_pool w)).*2 (w_heap w). intros ps.
    induction ps as [|q ps IH]; intros h; simpl; [done|].
    rewrite IH. apply length_alter.
  - intros rid p Hp. destruct (Hwf rid p Hp) as (pr & Hpr & _).
    exists pr. eexists. split; [done|].
    rewrite (attach_loop_lookup f stream _ _ p Hnd).
    rewrite bool_decide_eq_true_2 by (apply Hvals; eauto).
    rewrite Hpr. split; [done|]. apply attached_tracks.
  - intros p Hfree.
    rewrite (attach_loop_lookup f stream _ _ p Hnd).
    rewrite bool_decide_eq_false_2; [done|].
    intros [rid Hrid]%Hvals. by apply (Hfree rid).
Qed.

Lemma startMic_attaches_to_every_link_witness :
  let w' := exec (startMic picky alice_speaking browser (Some mic)) (run planned init) in
  w_localStream w' = Some mic
  ∧ (∃ pr', w_heap w' !! 0 = Some pr' ∧ p_tracks pr' = [(1, 0)])
  ∧ (∃ pr', w_heap w' !! 1 = Some pr' ∧ p_tracks pr' = [(1, 0)]).
Proof.
  destruct (startMic_attaches_to_every_link planned picky alice_speaking browser mic
              eq_refl eq_refl eq_refl eq_refl)
    as (_ & Hls & _ & _ & Hlinks & _).
  split; [exact Hls|]. split.
  - destruct (Hlinks (str "bob") 0 ltac:(by vm_compute)) as (pr & pr' & Hpr & Hpr' & Ht).
    exists pr'. split; [exact Hpr'|]. rewrite Ht.
    vm_compute in Hpr. injection Hpr as <-. by vm_compute.
  - destruct (Hlinks (str "carol") 1 ltac:(by vm_compute)) as (pr & pr' & Hpr & Hpr' & Ht).
    exists pr'. split; [exact Hpr'|]. rewrite Ht.
    vm_compute in Hpr. injection Hpr as <-. by vm_compute.
Defined.

(** ** Ending the room *)

Lemma channelRef_track_run (r : Role) (w : World) :
  channelRef_track r w
  = (match w_channelRef w with
     | Some ch => upd_channels (alter (chan_add_track r) ch) w
     | None => w
     end, Ok tt).
Proof.
  unfold channelRef_track, bind, gets, channel_track, modify, ret.
  by destruct (w_channelRef w).
Qed.

Lemma endRoom_run (env : Env) (w : World) :
  endRoom env w =
    if isOwner env
    then (upd_posts (λ l, l ++ [{| upd_active := false; upd_post := e_postId env;
                                   upd_owner := e_postOwnerId env |}])
            (set_myRole listener (channelRef_track listener (mic_stopped w)).1),
          Ok tt)
    else (w, Ok tt).
Proof.
  unfold endRoom, endRoom_sync, endRoom_resume.
  destruct (isOwner env); [|done]. simpl.
  unfold bind at 1. unfold bind at 1. rewrite stopMic_run.
  unfold bind at 1. rewrite channelRef_track_run. done.
Qed.

(** X5: [endRoom] does nothing for anyone but the owner.  For the owner it
    stops and releases the microphone, announces the listener role on the
    current channel, sets the role to listener and asks for the active flag to
    be set false, once; it leaves every link of the pool in place and does not
    touch the idempotency flag. *)
Theorem endRoom_closes_room (env : Env) (w : World) :
  (isOwner env = false → endRoom env w = (w, Ok tt))
  ∧ (isOwner env = true →
     let w' := exec (endRoom env) w in
     result (endRoom env) w = Ok tt
     ∧ w_myRole w' = listener
     ∧ w_localStream w' = None
     ∧ w_stopped w' = held_tracks (w_localStream w) ∪ w_stopped w
     ∧ w_channels w'
       = match w_channelRef w with
         | Some ch => alter (chan_add_track listener) ch (w_channels w)
         | None => w_channels w
         end
     ∧ w_posts w'
       = w_posts w ++ [{| upd_active := false; upd_post := e_postId env;
                          upd_owner := e_postOwnerId env |}]
     ∧ w_pool w' = w_pool w
     ∧ w_heap w' = w_heap w
     ∧ w_madeActiveOnce w' = w_madeActiveOnce w).
Proof.
  unfold exec, result. rewrite endRoom_run.
  split; intros ->; [done|]. rewrite channelRef_track_run. simpl.
  by destruct (w_channelRef w).
Qed.

Lemma endRoom_closes_room_witness :
  endRoom bob in_call = (in_call, Ok tt)
  ∧ w_myRole (exec (endRoom alice_speaking) in_call) = listener
  ∧ w_localStream (exec (endRoom alice_speaking) in_call) = None
  ∧ w_pool (exec (endRoom alice_speaking) in_call) = w_pool in_call.
Proof.
  destruct (endRoom_closes_room bob in_call) as [Hbob _].
  destruct (endRoom_closes_room alice_speaking in_call) as [_ Halice].
  destruct (Halice eq_refl) as (_ & Hrole & Hls & _ & _ & _ & Hpool & _).
  split; [by apply Hbob|]. split; [exact Hrole|]. split; [exact Hls|exact Hpool].
Defined.

(** ** The hot-reload guard *)

(** X6: in a production build the cleanup of the signaling effect is never
    held back, whatever hot-reload statuses were seen.  In a development build
    a [dispose] status makes the cleanup leave the session exactly as it is,
    and a later [apply] or [idle] status lets it tear the session down
    again. *)
Theorem hmr_guard (f : Faults) (env : Env) (channel : nat) (w : World) :
  (e_isDev env = false →
   signaling_cleanup f env channel w = (torn_down f env channel w, Ok tt))
  ∧ (e_isDev env = true →
     let disposing := exec (on_hmr_status hmr_dispose) w in
     signaling_cleanup f env channel disposing = (disposing, Ok tt)
     ∧ ∀ status, status = hmr_apply ∨ status = hmr_idle →
         let applied := exec (on_hmr_status status) disposing in
         signaling_cleanup f env channel applied
         = (torn_down f env channel applied, Ok tt)).
Proof.
  split.
  - intros Hdev. by rewrite signaling_cleanup_run, Hdev.
  - intros Hdev. cbv zeta. split.
    + by rewrite signaling_cleanup_run, Hdev.
    + intros status [-> | ->]; by rewrite signaling_cleanup_run, Hdev.
Qed.

Lemma hmr_guard_witness :
  signaling_cleanup no_faults alice_dev 0 (exec (on_hmr_status hmr_dispose) in_call)
  = (exec (on_hmr_status hmr_dispose) in_call, Ok tt)
  ∧ w_pool (exec (signaling_cleanup no_faults alice 0)
                 (exec (on_hmr_status hmr_dispose) in_call)) = ∅.
Proof.
  destruct (hmr_guard no_faults alice_dev 0 in_call) as [_ Hdev].
  destruct (hmr_guard no_faults alice 0 (exec (on_hmr_status hmr_dispose) in_call))
    as [Hprod _].
  split; [by apply Hdev|].
  unfold exec at 1. by rewrite Hprod.
Defined.

(** ** Teardown, twice *)

(** X7: a second run of the cleanup finds nothing left to do: it leaves the
    session as the first run left it, except that an owner's cleanup asks for
    the active flag to be set false once more. *)
Theorem teardown_twice (f : Faults) (env : Env) (channel : nat) (w : World) :
  e_isDev env && w_hmrDisposing w = false →
  let once := exec (signaling_cleanup f env channel) w in
  exec (signaling_cleanup f env channel) once
  = upd_posts (λ l, l ++ (if isOwner env
                          then [{| upd_active := false; upd_post := e_postId env;
                                   upd_owner := e_postOwnerId env |}]
                          else [])) once.
Proof.
  intros Hhmr. cbv zeta. unfold exec.
  rewrite (signaling_cleanup_run f env channel w), Hhmr. cbn [fst].
  rewrite signaling_cleanup_run.
  change (w_hmrDisposing (torn_down f env channel w)) with (w_hmrDisposing w).
  rewrite Hhmr. cbn [fst].
  unfold torn_down, upd_posts. simpl.
  rewrite map_to_list_empty. simpl.
  rewrite (left_id_L ∅ (∪)). f_equal.
  destruct (f_unsubscribe f channel); [done|].
  rewrite list_alter_alter_eq. by apply list_alter_ext.
Qed.

Lemma teardown_twice_witness :
  w_posts (exec (signaling_cleanup no_faults alice 0)
                (exec (signaling_cleanup no_faults alice 0) in_call))
  = w_posts (exec (signaling_cleanup no_faults alice 0) in_call)
    ++ [{| upd_active := false; upd_post := str "post-1";
           upd_owner := Some (str "alice") |}].
Proof.
  by rewrite (teardown_twice no_faults alice 0 in_call eq_refl).
Defined.

(** ** Outbound signals *)

(** X8: in any state the session can reach, a [signal] event of any peer
    object goes out on the channel [channelRef] holds at that moment, wrapped
    with a [from] that is a non-empty id (never null), and changes nothing
    else; when [channelRef] is null it is dropped.  So after a teardown, and
    until the effect subscribes again, no peer sends anything. *)
Theorem outbound_signal_envelope (tr : list (Faults * Event)) (f : Faults)
    (peer : nat) (pr : Peer) (signal : nat) :
  let w := run tr init in
  w_heap w !! peer = Some pr →
  ∃ me, e_profileId (p_env pr) = Some me
        ∧ me ≠ []
        ∧ handle f (EPeerSignal peer signal) w
          = (match w_channelRef w with
             | Some ch => upd_channels (alter (chan_add_sent (Some me, signal)) ch) w
             | None => w
             end, Ok tt)
        ∧ ∀ f' env channel,
            e_isDev env && w_hmrDisposing w = false →
            let w' := exec (signaling_cleanup f' env channel) w in
            handle f (EPeerSignal peer signal) w' = (w', Ok tt).
Proof.
  intros w Hpr.
  assert (closures_ok w) as [Hclos _] by apply run_closures. clearbody w.
  pose proof (Hclos peer pr Hpr) as Hme.
  destruct (e_profileId (p_env pr)) as [me|] eqn:Hprof; [|done].
  exists me. split; [done|]. split; [by destruct me|]. split.
  - simpl. unfold peer_listener, on_peer_signal.
    unfold bind at 1. unfold gets at 1. rewrite Hpr, Hprof.
    unfold bind, gets, modify, ret. by destruct (w_channelRef w).
  - intros f' env channel Hhmr. cbv zeta. unfold exec.
    rewrite signaling_cleanup_run, Hhmr. simpl.
    unfold peer_listener, on_peer_signal.
    unfold bind at 1. unfold gets at 1. simpl.
    by destruct (destroyed_all _ _ _ !! peer).
Qed.

Lemma outbound_signal_envelope_witness :
  ch_sent <$> w_channels (exec (handle no_faults (EPeerSignal 0 41)) in_call) !! 0
  = Some [(Some (str "alice"), 41)]
  ∧ handle no_faults (EPeerSignal 0 41) (exec (signaling_cleanup no_faults alice 0) in_call)
    = (exec (signaling_cleanup no_faults alice 0) in_call, Ok tt).
Proof.
  destruct (outbound_signal_envelope calling no_faults 0 _ 41 eq_refl)
    as (me & Hme & _ & Hsend & Hmute).
  split.
  - unfold exec, in_call. rewrite Hsend. vm_compute in Hme.
    injection Hme as <-. by vm_compute.
  - by apply (Hmute no_faults alice 0).
Defined.

(** ** What the signal handler leaves alone *)

(** X9: whatever it is given, the signal handler creates at most one peer,
    keeps every pool entry it finds, and touches neither role, participants,
    microphone, remote streams, channel, request log, idempotency flag,
    timers nor suspended handlers. *)
Theorem on_signal_frame (f : Faults) (env : Env) (from : jsstring) (data : nat)
    (w : World) :
  let w' := exec (on_signal f env from data) w in
  (∀ rid old, w_pool w !! rid = Some old → w_pool w' !! rid = Some old)
  ∧ length (w_heap w) ≤ length (w_heap w') ≤ S (length (w_heap w))
  ∧ upd_pool (λ _, w_pool w) (upd_heap (λ _, w_heap w) w') = w.
Proof.
  cbv zeta. unfold exec.
  assert (upd_pool (λ _, w_pool w) (upd_heap (λ _, w_heap w) w) = w) as Hsame
    by (by destruct w).
  destruct (e_profileId env) as [me|] eqn:Hme;
    [|unfold on_signal, with_session; rewrite Hme; simpl;
      repeat split; [done|lia|lia|exact Hsame]].
  destruct (truthy_str me && truthy_str (e_postId env)) eqn:Hg;
    [|unfold on_signal, with_session; rewrite Hme, Hg; simpl;
      repeat split; [done|lia|lia|exact Hsame]].
  apply andb_true_iff in Hg as [Hp Hpost].
  rewrite (on_signal_run f env me from data w Hme Hp Hpost).
  destruct (bool_decide (from = me));
    [simpl; repeat split; [done|lia|lia|exact Hsame]|].
  destruct (w_pool w !! from) as [peer|] eqn:Hknown.
  - destruct (signal_throws f peer w); simpl; rewrite ?length_alter;
      repeat split; first [done|lia|exact Hsame].
  - destruct (inherited from);
      [simpl; repeat split; [done|lia|lia|exact Hsame]|].
    cbv zeta.
    destruct (f_signal f (length (w_heap w))); simpl; rewrite length_app; simpl;
      (repeat split; [|lia|lia|exact Hsame]);
      intros rid old Hold; (rewrite lookup_insert_ne; [done|]); congruence.
Qed.

Lemma on_signal_frame_witness :
  w_pool in_call !! str "bob" = Some 0
  ∧ w_pool (exec (on_signal no_faults alice_speaking (str "dave") 7) in_call)
      !! str "bob" = Some 0.
Proof.
  destruct (on_signal_frame no_faults alice_speaking (str "dave") 7 in_call)
    as [Hkeep _].
  split; [by vm_compute|]. apply Hkeep. by vm_compute.
Defined.

(** ** The peer plan, run again *)

Lemma plan_loop_noop (f : Faults) (env : Env) (me : jsstring)
    (cs : list PresenceParticipant) (w : World) :
  (∀ c, c ∈ cs → is_Some (w_pool w !! ap_profile_id c)
                 ∨ inherited (ap_profile_id c) = true) →
  for_each cs (plan_link f env me) w = (w, Ok tt).
Proof.
  induction cs as [|c cs IH]; intros Hall; [done|].
  simpl. unfold bind at 1. unfold plan_link at 1. cbv zeta.
  unfold bind at 1. unfold gets at 1.
  assert (∀ c', c' ∈ cs → is_Some (w_pool w !! ap_profile_id c')
                          ∨ inherited (ap_profile_id c') = true) as Hrest.
  { intros c' Hc'. apply Hall. by apply list_elem_of_further. }
  destruct (Hall c) as [[q Hq]|Hown]; [apply list_elem_of_here| |].
  - rewrite Hq. unfold ret at 1. by apply IH.
  - rewrite Hown. destruct (w_pool w !! ap_profile_id c); unfold ret at 1; by apply IH.
Qed.

Lemma plan_loop_ok (f : Faults) (env : Env) (me : jsstring)
    (cs : list PresenceParticipant) (w : World) :
  (for_each cs (plan_link f env me) w).2 = Ok tt.
Proof.
  induction cs as [|c cs IH] in w |- *; [done|].
  simpl. unfold bind at 1.
  destruct (plan_link_run f env me c w) as (w2 & -> & _). apply IH.
Qed.

Lemma peer_plan_effect_run (f : Faults) (env : Env) (me : jsstring) (w : World) :
  e_profileId env = Some me →
  truthy_str me = true →
  exec (peer_plan_effect f env) w
  = exec (setTimeout (TMic env) 150)
         (exec (for_each (candidates env me) (plan_link f env me)) w).
Proof.
  intros Hme Hp. unfold exec, peer_plan_effect. rewrite Hme, Hp.
  unfold bind at 1.
  pose proof (plan_loop_ok f env me (candidates env me) w) as Hok.
  destruct (for_each _ _ w) as [w1 [[]|]]; [|done].
  by cbv beta iota zeta delta [bind setTimeout gets modify ret].
Qed.

Lemma peer_plan_effect_off (f : Faults) (env : Env) (w : World) :
  truthy (e_profileId env) = false → peer_plan_effect f env w = (w, Ok None).
Proof.
  unfold peer_plan_effect. destruct (e_profileId env) as [[|a me]|]; done.
Qed.

(** X10: running the peer plan a second time with the same closure opens
    nothing: the pool, every peer object and the microphone are as the first
    run left them. *)
Theorem peer_plan_twice (f : Faults) (env : Env) (w : World) :
  let once := exec (peer_plan_effect f env) w in
  let twice := exec (peer_plan_effect f env) once in
  w_pool twice = w_pool once
  ∧ w_heap twice = w_heap once
  ∧ w_localStream twice = w_localStream once
  ∧ w_remoteStreams twice = w_remoteStreams once.
Proof.
  cbv zeta.
  destruct (truthy (e_profileId env)) eqn:Ht;
    [|unfold exec; by rewrite !peer_plan_effect_off].
  destruct (e_profileId env) as [me|] eqn:Hme; [|done].
  assert (truthy_str me = true) as Hp by (by destruct me).
  rewrite (peer_plan_effect_run f env me _ Hme Hp).
  set (once := exec (peer_plan_effect f env) w).
  assert (∀ c, c ∈ candidates env me →
               is_Some (w_pool once !! ap_profile_id c)
               ∨ inherited (ap_profile_id c) = true) as Hall.
  { intros c Hc.
    destruct (inherited (ap_profile_id c)) eqn:Hown; [by right|left].
    subst once. rewrite (peer_plan_effect_run f env me w Hme Hp).
    change (w_pool (exec (setTimeout (TMic env) 150) ?x)) with (w_pool x).
    unfold exec.
    apply (plan_loop_pool f env me (candidates env me) w (ap_profile_id c)).
    right. split; [done|]. apply list_elem_of_fmap. eauto. }
  unfold exec at 2 4 6 8. by rewrite (plan_loop_noop f env me _ once Hall).
Qed.

(** ** The links the peer plan opens *)

Lemma plan_link_exact (f : Faults) (env : Env) (me : jsstring)
    (c : PresenceParticipant) (w : World) :
  plan_link f env me c w =
    if bool_decide (is_Some (w_pool w !! ap_profile_id c))
       || inherited (ap_profile_id c)
    then (w, Ok tt)
    else
      (upd_pool <[ap_profile_id c := length (w_heap w)]>
         (upd_heap (λ h, h ++ [linked f env (w_localStream w) (length (w_heap w))
                                      (new_peer env (isInitiator me (ap_profile_id c))
                                                (ap_profile_id c))]) w),
       Ok tt).
Proof.
  unfold plan_link. cbv zeta. unfold bind at 1. unfold gets at 1.
  destruct (w_pool w !! ap_profile_id c) as [q|] eqn:Hc.
  - by rewrite bool_decide_eq_true_2.
  - rewrite (bool_decide_eq_false_2 (is_Some (@None nat))) by apply is_Some_None.
    simpl.
    destruct (inherited (ap_profile_id c)); [done|]. apply open_link_run.
Qed.

Lemma plan_loop_links (f : Faults) (env : Env) (me : jsstring)
    (cs : list PresenceParticipant) (w : World) :
  let w' := exec (for_each cs (plan_link f env me)) w in
  (∀ p, p < length (w_heap w) → w_heap w' !! p = w_heap w !! p)
  ∧ (∀ rid p, w_pool w' !! rid = Some p →
       w_pool w !! rid = Some p
       ∨ (w_pool w !! rid = None
          ∧ length (w_heap w) ≤ p
          ∧ ∃ pr, w_heap w' !! p = Some pr
                  ∧ p_initiator pr = isInitiator me rid
                  ∧ p_remote pr = rid
                  ∧ p_destroyed pr = false
                  ∧ p_signals pr = [])).
Proof.
  cbv zeta. unfold exec.
  induction cs as [|c cs IH] in w |- *; [by split; auto|].
  simpl for_each.
  pose proof (plan_link_exact f env me c w) as Hstep.
  destruct (bool_decide (is_Some (w_pool w !! ap_profile_id c))
            || inherited (ap_profile_id c)) eqn:Hc.
  { rewrite !(bind_run _ _ w w tt Hstep). apply IH. }
  apply orb_false_iff in Hc as [Hc _].
  apply bool_decide_eq_false_1, eq_None_not_Some in Hc.
  set (new := linked f env (w_localStream w) (length (w_heap w))
                (new_peer env (isInitiator me (ap_profile_id c)) (ap_profile_id c)))
    in Hstep.
  set (w1 := upd_pool _ _) in Hstep.
  rewrite !(bind_run _ _ w w1 tt Hstep).
  destruct (IH w1) as [IHa IHb].
  assert (w_heap w1 = w_heap w ++ [new]) as Hheap1 by done.
  assert (w_pool w1 = <[ap_profile_id c := length (w_heap w)]> (w_pool w)) as Hpool1
    by done.
  rewrite Hheap1, length_app in IHa, IHb.
  change (length [new]) with 1 in IHa, IHb.
  split.
  - intros p Hp. rewrite IHa by lia. by apply lookup_app_l.
  - intros rid p Hp. destruct (IHb rid p Hp) as [Hold|(Hnone & Hge & Hnew)].
    + rewrite Hpool1, lookup_insert in Hold. case_decide as Hrid.
      * injection Hold as <-. subst rid. right. split; [done|]. split; [done|].
        exists new. rewrite IHa by lia. split; [by apply list_lookup_middle|].
        subst new.
        by destruct (linked_fields f env (w_localStream w) (length (w_heap w))
                       (new_peer env (isInitiator me (ap_profile_id c))
                                 (ap_profile_id c))) as (-> & -> & -> & _ & ->).
      * by left.
    + right. rewrite Hpool1, lookup_insert in Hnone. case_decide; [done|].
      split; [done|]. split; [lia|done].
Qed.

Lemma peer_plan_elects_initiator_aux (f : Faults) (env : Env) (me : jsstring)
    (w : World) (rid : jsstring) (p : nat) :
  e_profileId env = Some me →
  truthy_str me = true →
  w_pool w !! rid = None →
  w_pool (exec (peer_plan_effect f env) w) !! rid = Some p →
  ∃ pr, w_heap (exec (peer_plan_effect f env) w) !! p = Some pr
        ∧ p_initiator pr = isInitiator me rid.
Proof.
  intros Hme Hp Hnone.
  rewrite (peer_plan_effect_run f env me w Hme Hp).
  change (w_pool (exec (setTimeout (TMic env) 150) ?x)) with (w_pool x).
  change (w_heap (exec (setTimeout (TMic env) 150) ?x)) with (w_heap x).
  destruct (plan_loop_links f env me (candidates env me) w) as [_ Hb].
  intros Hnew.
  destruct (Hb rid p Hnew) as [Hold|(_ & _ & pr & Hpr & Hi & _)]; [congruence|].
  by exists pr.
Qed.

(** X11: a link the peer plan opens for a remote id is a new peer object, not
    yet destroyed and not yet signalled, built for that id with
    [initiator = isInitiator(profileId, id)]; the plan leaves every peer
    object that existed before exactly as it was. *)
Theorem peer_plan_elects_initiator (f : Faults) (env : Env) (me : jsstring)
    (w : World) (rid : jsstring) (p : nat) :
  e_profileId env = Some me →
  truthy_str me = true →
  w_pool w !! rid = None →
  let w' := exec (peer_plan_effect f env) w in
  w_pool w' !! rid = Some p →
  (∃ pr, w_heap w' !! p = Some pr
         ∧ length (w_heap w) ≤ p
         ∧ p_initiator pr = isInitiator me rid
         ∧ p_remote pr = rid
         ∧ p_destroyed pr = false
         ∧ p_signals pr = [])
  ∧ (∀ q, q < length (w_heap w) → w_heap w' !! q = w_heap w !! q).
Proof.
  intros Hme Hp Hnone. cbv zeta.
  rewrite (peer_plan_effect_run f env me w Hme Hp).
  change (w_pool (exec (setTimeout (TMic env) 150) ?x)) with (w_pool x).
  change (w_heap (exec (setTimeout (TMic env) 150) ?x)) with (w_heap x).
  destruct (plan_loop_links f env me (candidates env me) w) as [Ha Hb].
  intros Hnew. split; [|exact Ha].
  destruct (Hb rid p Hnew) as [Hold|(_ & Hge & pr & Hpr & Hrest)]; [congruence|].
  exists pr. by split.
Qed.

Lemma peer_plan_elects_initiator_witness :
  ∃ pr, w_heap (exec (peer_plan_effect no_faults alice_speaking)
                     (run owner_joining init)) !! 0 = Some pr
        ∧ p_initiator pr = true ∧ p_remote pr = str "bob".
Proof.
  destruct (peer_plan_elects_initiator no_faults alice_speaking (str "alice")
              (run owner_joining init)
              (str "bob") 0 eq_refl eq_refl ltac:(by vm_compute) ltac:(by vm_compute))
    as [(pr & Hpr & _ & Hi & Hr & _) _].
  exists pr. split; [exact Hpr|]. split; [|exact Hr].
  rewrite Hi. by vm_compute.
Defined.

(** X12: when two participants' plans each open a link to the other, exactly
    one of the two links is an initiator. *)
Theorem peer_plans_never_glare (fA fB : Faults) (envA envB : Env) (a b : jsstring)
    (wA wB : World) (pA pB : nat) (prA prB : Peer) :
  e_profileId envA = Some a → truthy_str a = true →
  e_profileId envB = Some b → truthy_str b = true →
  a ≠ b →
  w_pool wA !! b = None →
  w_pool wB !! a = None →
  let wA' := exec (peer_plan_effect fA envA) wA in
  let wB' := exec (peer_plan_effect fB envB) wB in
  w_pool wA' !! b = Some pA → w_heap wA' !! pA = Some prA →
  w_pool wB' !! a = Some pB → w_heap wB' !! pB = Some prB →
  p_initiator prA = negb (p_initiator prB).
Proof.
  intros HA HpA HB HpB Hne HnA HnB. cbv zeta. intros HpoolA HprA HpoolB HprB.
  destruct (peer_plan_elects_initiator_aux fA envA a wA b pA HA HpA HnA HpoolA)
    as (pr1 & Hpr1 & Hi1).
  destruct (peer_plan_elects_initiator_aux fB envB b wB a pB HB HpB HnB HpoolB)
    as (pr2 & Hpr2 & Hi2).
  assert (pr1 = prA) as -> by congruence.
  assert (pr2 = prB) as -> by congruence.
  rewrite Hi1, Hi2. unfold isInitiator.
  destruct (str_lt b a) eqn:Hba; simpl.
  - by apply str_lt_asym.
  - by apply str_lt_total.
Qed.

Lemma peer_plans_never_glare_witness :
  ∃ prA prB,
    w_heap (exec (peer_plan_effect no_faults alice_speaking) (run owner_joining init)) !! 1
    = Some prA
    ∧ w_heap (exec (peer_plan_effect no_faults carol) init) !! 0 = Some prB
    ∧ p_initiator prA = negb (p_initiator prB).
Proof.
  destruct (w_heap (exec (peer_plan_effect no_faults alice_speaking)
                         (run owner_joining init)) !! 1) as [prA|] eqn:HA;
    [|by vm_compute in HA].
  destruct (w_heap (exec (peer_plan_effect no_faults carol) init) !! 0) as [prB|] eqn:HB;
    [|by vm_compute in HB].
  exists prA, prB. split; [done|]. split; [done|].
  apply (peer_plans_never_glare no_faults no_faults alice_speaking carol
           (str "alice") (str "carol") (run owner_joining init) init 1 0 prA prB);
    try exact HA; try exact HB; by vm_compute.
Defined.

(** ** The debounce timer *)

Lemma fresh_setTimeout (a : TimerAction) (d : N) :
  preserves timers_fresh (setTimeout a d).
Proof.
  intros w Hfresh h. unfold exec, setTimeout, bind, gets, modify, ret. simpl.
  rewrite lookup_insert. case_decide as Hh; [lia|].
  intros Hsome. specialize (Hfresh h Hsome). lia.
Qed.

Lemma fresh_delete (h : nat) :
  preserves timers_fresh (modify (upd_timers (delete h))).
Proof.
  intros w Hfresh h'. unfold exec, modify. simpl.
  intros [t [_ Ht]%lookup_delete_Some]. apply Hfresh. eauto.
Qed.

Ltac fresh_step :=
  first [ apply fresh_setTimeout | apply fresh_delete | preserves_step ].

Lemma handle_fresh (f : Faults) (e : Event) : preserves timers_fresh (handle f e).
Proof.
  destruct e; simpl;
    unfold on_hmr_status, signaling_effect, signaling_cleanup, on_presence_sync,
      on_signal, on_subscribed_sync, peer_plan_effect, plan_link, peer_plan_cleanup,
      peer_listener, on_iceconnectionstatechange, on_connectionstatechange,
      on_peer_signal, on_peer_stream, fire_timer, resume, becomeSpeaker_sync,
      becomeSpeaker_resume, on_subscribed_resume,
      becomeListener_sync, becomeListener_resume, endRoom_sync, endRoom_resume,
      with_session, attemptRebuild, mic_debounced_sync, startMic_sync,
      startMic_resume, stopMic, attachLocalTracksToPeer, attachRemote, createPeer,
      peer_destroy, peer_addTrack, peer_signal, channel_unsubscribe,
      channelRef_track, channel_track, track_stop, clearTimeout,
      suspend, setRoomActive;
    cbv zeta; repeat fresh_step.
Qed.

Lemma run_fresh (tr : list (Faults * Event)) : timers_fresh (run tr init).
Proof.
  assert (∀ w, timers_fresh w → timers_fresh (run tr w)) as H.
  { induction tr as [|[f e] tr IH]; intros w Hw; [done|].
    simpl. apply IH. by apply handle_fresh. }
  apply H. intros h. unfold init. simpl. rewrite lookup_empty. by intros [? ?].
Qed.

Lemma plan_loop_frame (f : Faults) (env : Env) (me : jsstring)
    (cs : list PresenceParticipant) (w : World) :
  (for_each cs (plan_link f env me) w).1
  = upd_pool (λ _, w_pool (for_each cs (plan_link f env me) w).1)
      (upd_heap (λ _, w_heap (for_each cs (plan_link f env me) w).1) w).
Proof.
  induction cs as [|c cs IH] in w |- *; [by destruct w|].
  simpl for_each.
  pose proof (plan_link_exact f env me c w) as Hstep.
  destruct (bool_decide (is_Some (w_pool w !! ap_profile_id c))
            || inherited (ap_profile_id c)).
  { rewrite !(bind_run _ _ w w tt Hstep). apply IH. }
  set (w1 := upd_pool _ _) in Hstep.
  rewrite !(bind_run _ _ w w1 tt Hstep).
  rewrite (IH w1) at 1. done.
Qed.

(** X13: in any state the session can reach, the peer plan leaves one
    debounce timer of 150 ms behind; when its cleanup runs before the timer
    fires, the timers are as they were before the effect, a late firing of
    that handle does nothing, and the effect and its cleanup together have
    touched neither the microphone nor any suspended handler. *)
Theorem superseded_plan_spares_mic (tr : list (Faults * Event)) (f : Faults)
    (env : Env) (me : jsstring) (ctx : MicCtx) :
  let w := run tr init in
  e_profileId env = Some me →
  truthy_str me = true →
  let t := w_next_timer w in
  let w1 := exec (peer_plan_effect f env) w in
  let w2 := exec (peer_plan_cleanup t) w1 in
  result (peer_plan_effect f env) w = Ok (Some t)
  ∧ w_timers w1 = <[t := {| tm_delay := 150; tm_action := TMic env |}]> (w_timers w)
  ∧ w_timers w2 = w_timers w
  ∧ handle f (ETimer t ctx) w2 = (w2, Ok tt)
  ∧ w_localStream w2 = w_localStream w
  ∧ w_stopped w2 = w_stopped w
  ∧ w_pending w2 = w_pending w.
Proof.
  intros w Hme Hp.
  assert (timers_fresh w) as Hfresh by apply run_fresh. clearbody w.
  assert (w_timers w !! w_next_timer w = None) as Hnone.
  { apply eq_None_not_Some. intros Hsome%Hfresh. lia. }
  cbv zeta.
  assert (peer_plan_effect f env w
          = ((setTimeout (TMic env) 150
                (for_each (candidates env me) (plan_link f env me) w).1).1,
             Ok (Some (w_next_timer w)))) as Hrun.
  { unfold peer_plan_effect. rewrite Hme, Hp. unfold bind at 1.
    pose proof (plan_loop_ok f env me (candidates env me) w) as Hok.
    pose proof (plan_loop_frame f env me (candidates env me) w) as Hframe.
    destruct (for_each _ _ w) as [wl [[]|]]; [|done]. simpl in Hframe.
    cbv beta iota zeta delta [bind setTimeout gets modify ret]. simpl.
    by rewrite Hframe. }
  unfold exec, result. rewrite Hrun. simpl.
  pose proof (plan_loop_frame f env me (candidates env me) w) as Hframe.
  set (wl := (for_each _ _ w).1) in *.
  assert (w_timers wl = w_timers w ∧ w_next_timer wl = w_next_timer w
          ∧ w_localStream wl = w_localStream w ∧ w_stopped wl = w_stopped w
          ∧ w_pending wl = w_pending w) as (Ht & Hn & Hl & Hs & Hpd)
    by (by rewrite Hframe).
  clearbody wl.
  unfold setTimeout, bind, gets, modify, ret, peer_plan_cleanup, clearTimeout. simpl.
  rewrite Ht. rewrite !Hn. rewrite Hl, Hs, Hpd.
  split; [done|]. split; [done|].
  split; [by rewrite delete_insert_eq, delete_id|].
  split; [|done].
  unfold fire_timer, bind, gets. simpl.
  by rewrite lookup_delete_eq.
Qed.

Lemma superseded_plan_spares_mic_witness :
  let w1 := exec (peer_plan_effect no_faults alice_speaking) in_call in
  w_timers w1 !! 1 = Some {| tm_delay := 150; tm_action := TMic alice_speaking |}
  ∧ w_timers (exec (peer_plan_cleanup 1) w1) = w_timers in_call
  ∧ w_localStream (exec (peer_plan_cleanup 1) w1) = Some mic.
Proof.
  destruct (superseded_plan_spares_mic calling no_faults alice_speaking (str "alice")
              browser eq_refl eq_refl) as (_ & Ht1 & Ht2 & _ & Hls & _).
  cbv zeta. unfold in_call. split; [|split].
  - rewrite Ht1. apply lookup_insert_eq.
  - exact Ht2.
  - etransitivity; [exact Hls|by vm_compute].
Defined.

Lemma fire_timer_mic (f : Faults) (env : Env) (t : nat) (d : N) (ctx : MicCtx)
    (w : World) :
  w_timers w !! t = Some {| tm_delay := d; tm_action := TMic env |} →
  fire_timer f t ctx w
  = (if bool_decide (e_myRole env = speaker)
     then if bool_decide (w_localStream w = None)
             && mc_isSecureContext ctx && (mc_hasStd ctx || mc_hasWebkit ctx)
          then (upd_pending (λ l, l ++ [KStartMic]) (upd_timers (delete t) w), Ok tt)
          else (upd_timers (delete t) w, Ok tt)
     else (mic_stopped (upd_timers (delete t) w), Ok tt)).
Proof.
  intros Ht. unfold fire_timer.
  unfold bind at 1. unfold gets at 1. rewrite Ht.
  unfold bind at 1. unfold modify at 1. simpl.
  unfold mic_debounced_sync, startMic_sync.
  destruct (bool_decide (e_myRole env = speaker)); simpl.
  - unfold bind, gets. simpl. destruct (w_localStream w); [done|].
    rewrite bool_decide_eq_true_2 by done. simpl.
    destruct (mc_isSecureContext ctx); [|done]. simpl.
    by destruct (mc_hasStd ctx || mc_hasWebkit ctx).
  - unfold bind at 1. unfold bind at 1. by rewrite stopMic_run.
Qed.

(** X14: when a debounce timer fires, a closure with the listener role stops
    and releases the microphone and leaves pool and peers alone; a closure
    with the speaker role leaves a held stream alone, and with no stream held
    (secure context, microphone API present) it asks for the microphone and
    waits, having changed nothing yet. *)
Theorem debounced_mic_control (f : Faults) (env : Env) (t : nat) (ctx : MicCtx)
    (w : World) :
  w_timers w !! t = Some {| tm_delay := 150; tm_action := TMic env |} →
  let w0 := upd_timers (delete t) w in
  (e_myRole env = listener →
   handle f (ETimer t ctx) w = (mic_stopped w0, Ok tt))
  ∧ (e_myRole env = speaker → is_Some (w_localStream w) →
     handle f (ETimer t ctx) w = (w0, Ok tt))
  ∧ (e_myRole env = speaker → w_localStream w = None →
     mc_isSecureContext ctx = true → mc_hasStd ctx || mc_hasWebkit ctx = true →
     handle f (ETimer t ctx) w = (upd_pending (λ l, l ++ [KStartMic]) w0, Ok tt)).
Proof.
  intros Ht. cbv zeta. simpl. rewrite (fire_timer_mic f env t 150 ctx w Ht).
  split; [|split].
  - intros ->. done.
  - intros -> [s Hs]. rewrite Hs. done.
  - intros -> -> -> ->. done.
Qed.

Lemma debounced_mic_control_witness :
  let w1 := exec (peer_plan_effect no_faults alice) in_call in
  w_localStream in_call = Some mic
  ∧ w_localStream (exec (handle no_faults (ETimer 1 browser)) w1) = None
  ∧ w_stopped (exec (handle no_faults (ETimer 1 browser)) w1) = {[0; 1]}
  ∧ w_pool (exec (handle no_faults (ETimer 1 browser)) w1) = w_pool in_call.
Proof.
  cbv zeta.
  destruct (debounced_mic_control no_faults alice 1 browser
              (exec (peer_plan_effect no_faults alice) in_call) ltac:(by vm_compute))
    as (Hl & _ & _).
  unfold exec at 1 3 5. rewrite (Hl eq_refl).
  split; [by vm_compute|]. split; [done|]. split; by vm_compute.
Defined.

(** ** Who writes the active flag *)







Lemma owner_frame {A} (m : M A) :
  (∀ w, w_posts (exec m w) = w_posts w ∧ w_pending (exec m w) = w_pending w) →
  preserves owner_scoped m.
Proof. intros Hm w [H1 H2]. destruct (Hm w) as [Hp Hq]. split; by rewrite ?Hp, ?Hq. Qed.














(** ** The pool over a whole session *)

(** X17: in any state the session can reach, every pool entry refers to an
    existing peer object that was created for that very remote id, and no
    peer object is the entry of two remote ids. *)
Theorem pool_entries_are_distinct_peers (tr : list (Faults * Event)) :
  let w := run tr init in
  (∀ rid p, w_pool w !! rid = Some p →
     p < length (w_heap w) ∧ ∃ pr, w_heap w !! p = Some pr ∧ p_remote pr = rid)
  ∧ (∀ rid1 rid2 p, w_pool w !! rid1 = Some p → w_pool w !! rid2 = Some p →
       rid1 = rid2).
Proof.
  intros w. assert (pool_wf w) as Hwf by apply run_pool_wf. clearbody w.
  split.
  - intros rid p Hp. destruct (Hwf rid p Hp) as (pr & Hpr & Hrid).
    split; [by eapply lookup_lt_Some|eauto].
  - intros rid1 rid2 p H1 H2.
    destruct (Hwf rid1 p H1) as (pr1 & Hpr1 & <-).
    destruct (Hwf rid2 p H2) as (pr2 & Hpr2 & <-). congruence.
Qed.

Lemma pool_entries_are_distinct_peers_witness :
  w_pool (run calling init) !! str "bob" = Some 0
  ∧ 0 < length (w_heap (run calling init))
  ∧ ∃ pr, w_heap (run calling init) !! 0 = Some pr ∧ p_remote pr = str "bob".
Proof.
  assert (w_pool (run calling init) !! str "bob" = Some 0) as Hbob by (by vm_compute).
  split; [exact Hbob|].
  destruct (pool_entries_are_distinct_peers calling) as [Hwf _].
  exact (Hwf (str "bob") 0 Hbob).
Defined.

(** X18: as long as no [destroy] call has thrown, the session never holds
    two live peer objects for the same remote id: any peer that is not
    destroyed is the pool's entry for its remote id. *)
Theorem one_live_peer_per_remote (tr : list (Faults * Event)) :
  Forall (λ fe, calm fe.1) tr →
  let w := run tr init in
  ∀ p q prp prq,
    w_heap w !! p = Some prp → w_heap w !! q = Some prq →
    p_destroyed prp = false → p_destroyed prq = false →
    p_remote prp = p_remote prq →
    p = q ∧ w_pool w !! p_remote prp = Some p.
Proof.
  intros Hcalm w p q prp prq Hp Hq Hlp Hlq Hrem.
  pose proof (run_live tr Hcalm) as Hlive. fold w in Hlive.
  pose proof (Hlive p prp Hp Hlp) as H1.
  pose proof (Hlive q prq Hq Hlq) as H2.
  rewrite <- Hrem in H2. split; [congruence|done].
Qed.

Lemma one_live_peer_per_remote_witness :
  length (w_heap (run rebuilt_twice init)) = 4
  ∧ w_pool (run rebuilt_twice init) !! str "bob" = Some 3.
Proof.
  split; [by vm_compute|].
  assert (Forall (λ fe, calm fe.1) rebuilt_twice) as Hcalm.
  { unfold rebuilt_twice, bob_failed, calling. simpl.
    repeat (apply Forall_cons; split; [intros ?; reflexivity|]). constructor. }
  assert (∃ pr3, w_heap (run rebuilt_twice init) !! 3 = Some pr3
                 ∧ p_destroyed pr3 = false ∧ p_remote pr3 = str "bob")
    as (pr3 & H3 & Hl3 & Hr3) by (vm_compute; eexists; repeat split).
  rewrite <- Hr3.
  apply (one_live_peer_per_remote rebuilt_twice Hcalm 3 3 pr3 pr3 H3 H3 Hl3 Hl3 eq_refl).
Defined.

(** ** The rows of the participant list *)

Lemma map_of_entries_snoc (es : list (jsstring * PresenceParticipant))
    (e : jsstring * PresenceParticipant) :
  map_of_entries (es ++ [e]) = map_set e.1 e.2 (map_of_entries es).
Proof. unfold map_of_entries. by rewrite foldl_app. Qed.

Lemma map_set_keys (k : jsstring) (v : PresenceParticipant)
    (m : list (jsstring * PresenceParticipant)) :
  (map_set k v m).*1 = if bool_decide (k ∈ m.*1) then m.*1 else m.*1 ++ [k].
Proof.
  induction m as [|[k' v'] m IH]; [done|].
  change (map_set k v ((k', v') :: m))
    with (if bool_decide (k' = k) then (k, v) :: m else (k', v') :: map_set k v m).
  rewrite (fmap_cons fst (k', v') m). simpl fst at 1 2 3.
  destruct (bool_decide_reflect (k' = k)) as [Hk|Hk].
  - subst k'. rewrite fmap_cons. simpl fst.
    rewrite bool_decide_eq_true_2; [done|]. apply list_elem_of_here.
  - rewrite fmap_cons, IH. simpl fst. case_bool_decide as Hin.
    + rewrite bool_decide_eq_true_2; [done|]. by apply list_elem_of_further.
    + rewrite bool_decide_eq_false_2; [done|].
      rewrite elem_of_cons. intros [?|?]; [congruence|done].
Qed.

Lemma map_of_entries_keys (es : list (jsstring * PresenceParticipant)) :
  (map_of_entries es).*1 = reverse (remove_dups (reverse es.*1)).
Proof.
  induction es as [|e es IH] using rev_ind; [done|].
  rewrite map_of_entries_snoc, map_set_keys, IH.
  rewrite fmap_app, reverse_app. simpl.
  case_bool_decide as Hin; rewrite elem_of_reverse, elem_of_remove_dups in Hin.
  - by destruct (decide_rel elem_of e.1 (reverse es.*1)).
  - destruct (decide_rel elem_of e.1 (reverse es.*1)); [done|].
    by rewrite reverse_cons.
Qed.

Lemma elem_of_map_set (k0 : jsstring) (v0 : PresenceParticipant)
    (m : list (jsstring * PresenceParticipant)) (k : jsstring) (v : PresenceParticipant) :
  NoDup m.*1 →
  (k, v) ∈ map_set k0 v0 m ↔ (k, v) = (k0, v0) ∨ (k ≠ k0 ∧ (k, v) ∈ m).
Proof.
  induction m as [|[k' v'] m IH]; simpl; intros Hnd.
  - rewrite list_elem_of_singleton, elem_of_nil. split; [auto|]. by intros [?|[_ []]].
  - apply NoDup_cons in Hnd as [Hk' Hnd]. case_bool_decide as Hk.
    + subst k'. rewrite !elem_of_cons. split.
      * intros [?|Hin]; [by left|]. right. split; [|by right].
        intros ->. apply Hk'. apply list_elem_of_fmap. by exists (k0, v).
      * intros [?|[Hne [[= ? ?]|?]]]; [by left|done|by right].
    + rewrite !elem_of_cons, (IH Hnd). split.
      * intros [[= -> ->]|[?|[? ?]]]; [right; split; [done|by left]|by left|].
        right. split; [done|by right].
      * intros [?|[Hne [?|?]]]; [right; by left|by left|]. right. by right.
Qed.

Lemma first_seen_NoDup (ids : list jsstring) :
  NoDup (reverse (remove_dups (reverse ids))).
Proof. rewrite reverse_Permutation. apply NoDup_remove_dups. Qed.

Lemma last_filter_snoc (P : PresenceParticipant → Prop) `{∀ x, Decision (P x)}
    (l : list PresenceParticipant) (x : PresenceParticipant) :
  last (filter P (l ++ [x])) = if decide (P x) then Some x else last (filter P l).
Proof.
  rewrite filter_app, filter_cons, filter_nil.
  destruct (decide (P x)); [apply last_snoc|by rewrite app_nil_r].
Qed.

Lemma map_of_participants (l : list PresenceParticipant) (k : jsstring)
    (v : PresenceParticipant) :
  (k, v) ∈ map_of_entries (List.map (λ p, (ap_profile_id p, p)) l)
  ↔ last (filter (λ q, ap_profile_id q = k) l) = Some v.
Proof.
  revert k v. induction l as [|x l IH] using rev_ind; intros k v.
  - simpl. rewrite elem_of_nil. by split.
  - rewrite List.map_app. simpl. rewrite map_of_entries_snoc. simpl.
    rewrite elem_of_map_set.
    2:{ rewrite map_of_entries_keys. apply first_seen_NoDup. }
    rewrite last_filter_snoc, IH. case_decide as Hx.
    + split.
      * intros [[= _ ->]|[Hne _]]; [done|congruence].
      * intros [= ->]. left. by rewrite Hx.
    + split.
      * intros [[= -> _]|[_ ?]]; [done|done].
      * intros Hlast. right. split; [congruence|done].
Qed.

Lemma rows_ids (l : list PresenceParticipant) :
  ap_profile_id <$> rows l
  = (map_of_entries (List.map (λ p, (ap_profile_id p, p)) l)).*1.
Proof.
  unfold rows. rewrite <- list_fmap_compose.
  apply list_fmap_ext. intros i [k v] Hkv. simpl.
  apply list_elem_of_lookup_2, map_of_participants in Hkv.
  apply last_Some_elem_of, list_elem_of_filter in Hkv. by destruct Hkv.
Qed.

(** X19: the participant list is rendered with one row per id, in the order
    in which the ids first appear; of several participants with the same id
    the last one is the one shown. *)
Theorem rows_are_unique_participants (l : list PresenceParticipant) :
  ap_profile_id <$> rows l = reverse (remove_dups (reverse (ap_profile_id <$> l)))
  ∧ NoDup (ap_profile_id <$> rows l)
  ∧ (∀ id, id ∈ ap_profile_id <$> rows l ↔ id ∈ ap_profile_id <$> l)
  ∧ (∀ p, p ∈ rows l
          ↔ last (filter (λ q, ap_profile_id q = ap_profile_id p) l) = Some p).
Proof.
  assert (ap_profile_id <$> rows l
          = reverse (remove_dups (reverse (ap_profile_id <$> l)))) as Hids.
  { rewrite rows_ids, map_of_entries_keys. do 3 f_equal.
    rewrite <- list_fmap_compose. by apply list_fmap_ext. }
  split; [exact Hids|]. rewrite Hids. split; [|split].
  - apply first_seen_NoDup.
  - intros id. by rewrite elem_of_reverse, elem_of_remove_dups, elem_of_reverse.
  - intros p. unfold rows. rewrite list_elem_of_fmap. split.
    + intros ([k v] & -> & Hkv). simpl.
      apply map_of_participants in Hkv.
      pose proof Hkv as Hin. apply last_Some_elem_of, list_elem_of_filter in Hin.
      destruct Hin as [-> _]. done.
    + intros Hlast. exists (ap_profile_id p, p). split; [done|].
      by apply map_of_participants.
Qed.

(** ** From a presence sync to the links *)

Lemma map_fmap {A B} (g : A → B) (l : list A) : List.map g l = g <$> l.
Proof. induction l as [|x l IH]; [done|]. simpl. by rewrite IH. Qed.

(** X20: a presence sync lists one participant per presence key, in order,
    the local id with the closure's role; and the peer plan of the render that
    follows links the session to exactly the ids it was linked to before plus
    every other listed id that names no member of [Object.prototype] and
    whose role, or the local role, is speaker. *)
Theorem sync_then_plan (f : Faults) (env : Env) (me : jsstring)
    (state : PresenceState) (w : World) (rid : jsstring) :
  e_profileId env = Some me →
  truthy_str me = true →
  truthy_str (e_postId env) = true →
  let w1 := exec (on_presence_sync env state) w in
  let w2 := exec (peer_plan_effect f (rerender env w1)) w1 in
  ap_profile_id <$> w_participants w1 = state.*1
  ∧ (∀ p, p ∈ w_participants w1 → ap_profile_id p = me → role p = e_myRole env)
  ∧ (is_Some (w_pool w2 !! rid)
     ↔ is_Some (w_pool w !! rid)
       ∨ (rid ≠ me ∧ inherited rid = false
          ∧ ∃ r, (rid, r) ∈ state ∧ (w_myRole w = speaker ∨ r = speaker))).
Proof.
  intros Hme Hp Hpost. cbv zeta.
  assert (exec (on_presence_sync env state) w
          = set_participants
              ((λ '(uid, meta_role),
                  {| ap_profile_id := uid;
                     role := if bool_decide (uid = me) then e_myRole env else meta_role |})
               <$> state) w) as Hsync.
  { unfold exec, on_presence_sync, with_session. rewrite Hme, Hp, Hpost. simpl.
    unfold modify. simpl. by rewrite map_fmap. }
  rewrite Hsync. set (flat := _ <$> state). simpl.
  assert (∀ p, p ∈ flat ↔ ∃ uid r, (uid, r) ∈ state
                          ∧ p = {| ap_profile_id := uid;
                                   role := if bool_decide (uid = me)
                                           then e_myRole env else r |}) as Hflat.
  { intros p. subst flat. rewrite list_elem_of_fmap. split.
    - intros ([uid r] & -> & Hin). eauto.
    - intros (uid & r & Hin & ->). by exists (uid, r). }
  split; [|split].
  - subst flat. rewrite <- list_fmap_compose. apply list_fmap_ext.
    by intros i [uid r] _.
  - intros p (uid & r & _ & ->)%Hflat. simpl. intros ->.
    by rewrite bool_decide_eq_true_2.
  - set (env1 := rerender env (set_participants flat w)).
    rewrite (peer_plan_effect_run f env1 me _ Hme Hp).
    change (w_pool (exec (setTimeout (TMic env1) 150) ?x)) with (w_pool x).
    unfold exec.
    destruct (plan_loop_pool f env1 me (candidates env1 me) (set_participants flat w) rid)
      as [_ ->].
    simpl. apply or_iff_compat_l.
    rewrite list_elem_of_fmap. unfold candidates. simpl. split.
    + intros (Hown & p & -> & Hin). apply list_elem_of_filter in Hin as [Hrole Hin].
      apply list_elem_of_filter in Hin as [Hne Hin].
      apply Hflat in Hin as (uid & r & Hin & ->). simpl in *.
      split; [done|]. split; [done|]. exists r. split; [done|].
      by rewrite bool_decide_eq_false_2 in Hrole.
    + intros (Hne & Hown & r & Hin & Hrole). split; [done|].
      exists {| ap_profile_id := rid;
                role := if bool_decide (rid = me) then e_myRole env else r |}.
      split; [done|]. apply list_elem_of_filter. simpl.
      split; [by rewrite bool_decide_eq_false_2|].
      apply list_elem_of_filter. split; [done|]. apply Hflat. eauto.
Qed.

Lemma sync_then_plan_witness :
  let w1 := exec (on_presence_sync carol presence) init in
  let w2 := exec (peer_plan_effect no_faults (rerender carol w1)) w1 in
  is_Some (w_pool w2 !! str "alice") ∧ w_pool w2 !! str "bob" = None.
Proof.
  cbv zeta. split.
  - apply (sync_then_plan no_faults carol (str "carol") presence init (str "alice")
             eq_refl eq_refl eq_refl).
    right. split; [done|]. split; [done|].
    exists speaker. split; [apply list_elem_of_here|by right].
  - apply eq_None_not_Some.
    intros H. apply (sync_then_plan no_faults carol (str "carol") presence init
                       (str "bob") eq_refl eq_refl eq_refl) in H.
    destruct H as [[? H]|(_ & _ & r & Hin & [H|H])]; [done|done|].
    subst r. vm_compute in Hin.
    repeat (apply elem_of_cons in Hin as [Hin|Hin]; [done|]).
    by apply elem_of_nil in Hin.
Defined.

(** ** A grant that arrives late *)

(** X21: the continuation of [startMic] after its [await] looks neither at
    the role, nor at a stream already held, nor at whether the session was torn
    down in the meantime: a granted stream is stored, no track is stopped (a
    stream it replaces keeps running), and the pool, the role, the channel, the
    timers, the remote streams and the request log stay as they are. *)
Theorem late_grant_is_kept (f : Faults) (k : nat) (stream : MediaStream) (w : World) :
  w_pending w !! k = Some KStartMic →
  let w' := exec (handle f (EResume k (Some stream))) w in
  w_localStream w' = Some stream
  ∧ w_stopped w' = w_stopped w
  ∧ w_pool w' = w_pool w
  ∧ w_myRole w' = w_myRole w
  ∧ w_channelRef w' = w_channelRef w
  ∧ w_timers w' = w_timers w
  ∧ w_remoteStreams w' = w_remoteStreams w
  ∧ w_posts w' = w_posts w
  ∧ length (w_heap w') = length (w_heap w).
Proof.
  intros Hk. cbv zeta.
  assert (handle f (EResume k (Some stream)) w
          = startMic_resume f (Some stream) (upd_pending (delete k) w)) as Hr.
  { unfold handle, resume. unfold bind at 1. unfold gets at 1. by rewrite Hk. }
  unfold exec. rewrite Hr, startMic_resume_granted. simpl.
  repeat split.
  generalize (w_heap w). generalize ((map_to_list (w_pool w)).*2).
  intros ps. induction ps as [|p ps IH]; intros h; simpl; [done|].
  by rewrite IH, length_alter.
Qed.

Lemma late_grant_is_kept_witness :
  let w := run left_while_asking init in
  let w' := exec (handle no_faults (EResume 0 (Some mic))) w in
  w_localStream w = None ∧ w_pool w = ∅ ∧ w_channelRef w = None
  ∧ w_localStream w' = Some mic ∧ w_stopped w' = ∅.
Proof.
  cbv zeta.
  destruct (late_grant_is_kept no_faults 0 mic (run left_while_asking init)
              ltac:(by vm_compute)) as (Hl & Hs & _).
  split; [by vm_compute|]. split; [by vm_compute|]. split; [by vm_compute|].
  split; [exact Hl|]. etransitivity; [exact Hs|by vm_compute].
Defined.

(** ** Ids that name a member of [Object.prototype] *)















